(** * RingBuffer.c: a shallow embedding and its checked properties

    The C file keeps a ring of variable-length records inside one caller
    supplied region.  Every record is preceded by a node header that is a
    member of two chains at once: a circular one ordered by address
    ([chain_pos]) and a linear one ordered by insertion time ([chain_time]).

    Embedding conventions.
    - Pointers are byte addresses in [Z]; [NULL] is address 0.
    - [size_t] and [uintptr_t] are 64 bits wide (LP64); every arithmetic
      operation of the source on these types is followed by [wrap].
    - The node headers that live in the cache are a finite map from the
      address of a header to its six fields.  A load through [NULL], or from
      an address that was never written as a header, has no defined value in
      C: the embedding returns [None] there, and so does every function that
      performs such an access.  A store through [NULL] is [None] as well.
    - Payload bytes are not modelled; a record is identified by the address
      of its token and by the [len] stored in the header. *)

From stdpp Require Import gmap list sorting.
From Stdlib Require Import ZArith Lia.

Local Open Scope Z_scope.

(** ** Machine integers *)

Definition SIZE_MAX1 : Z := 2 ^ 64.
Definition INT_MAX : Z := 2 ^ 31 - 1.

Definition wrap (z : Z) : Z := z mod SIZE_MAX1.

(** ** Layout constants (LP64)

    [ring_buffer_node_t] is four pointers, a 4-byte enum padded to 8, and the
    token, whose only sized member is [size_t len].  [struct ring_buffer] is
    a pointer, three [size_t]/pointer pairs. *)

Definition sizeof_ptr : Z := 8.
Definition sizeof_node : Z := 48.
Definition sizeof_ring_buffer : Z := 48.
Definition offsetof_token : Z := 40.

Definition NULL : Z := 0.

(** [ALIGN_SIZE(size, align)]:
    [(((uintptr_t)(size) + ((uintptr_t)(align) - 1)) & ~((uintptr_t)(align) - 1))] *)
Definition ALIGN_SIZE (size align : Z) : Z :=
  Z.land (wrap (wrap size + wrap (wrap align - 1)))
         (wrap (Z.lnot (wrap (wrap align - 1)))).

Definition ALIGN_PTR (ptr align : Z) : Z := ALIGN_SIZE ptr align.

(** [CONTAINER_FOR(ptr, ring_buffer_node_t, token)] *)
Definition CONTAINER_FOR (ptr : Z) : Z := ptr - offsetof_token.

(** [&node->token] *)
Definition token_of (node : Z) : Z := node + offsetof_token.

(** ** Data *)

Inductive ring_buffer_node_state : Set := writing | committed | reading.

Global Instance ring_buffer_node_state_eq_dec : EqDecision ring_buffer_node_state.
Proof. solve_decision. Defined.

(** The value the C enum passes to the [foreach] visitor. *)
Definition state_code (s : ring_buffer_node_state) : Z :=
  match s with writing => 0 | committed => 1 | reading => 2 end.

Record ring_buffer_node : Set := mk_node {
  p_forward : Z;   (* chain_pos.p_forward *)
  p_backward : Z;  (* chain_pos.p_backward *)
  p_newer : Z;     (* chain_time.p_newer *)
  p_older : Z;     (* chain_time.p_older *)
  state : ring_buffer_node_state;
  len : Z          (* token.len *)
}.

Global Instance ring_buffer_node_eq_dec : EqDecision ring_buffer_node.
Proof. solve_decision. Defined.

(** Contents of cache bytes that were never written as a header.  A store to
    one field of such a place leaves the other five fields with this value;
    the source writes all six fields of a new node before it reads any. *)
Definition junk_node : ring_buffer_node := mk_node 0 0 0 0 writing 0.

Definition set_p_forward (v : Z) (n : ring_buffer_node) :=
  mk_node v (p_backward n) (p_newer n) (p_older n) (state n) (len n).
Definition set_p_backward (v : Z) (n : ring_buffer_node) :=
  mk_node (p_forward n) v (p_newer n) (p_older n) (state n) (len n).
Definition set_p_newer (v : Z) (n : ring_buffer_node) :=
  mk_node (p_forward n) (p_backward n) v (p_older n) (state n) (len n).
Definition set_p_older (v : Z) (n : ring_buffer_node) :=
  mk_node (p_forward n) (p_backward n) (p_newer n) v (state n) (len n).
Definition set_state (v : ring_buffer_node_state) (n : ring_buffer_node) :=
  mk_node (p_forward n) (p_backward n) (p_newer n) (p_older n) v (len n).
Definition set_len (v : Z) (n : ring_buffer_node) :=
  mk_node (p_forward n) (p_backward n) (p_newer n) (p_older n) (state n) v.

(** [struct ring_buffer] together with the headers stored in its cache.
    [oldeest_reserve] is the member name that line 382 of the source assigns
    to; the struct declares no member of that name and no function reads
    it. *)
Record ring_buffer : Type := mk_rb {
  cache : Z;            (* cfg.cache *)
  capacity : Z;         (* cfg.capacity *)
  lost : Z;             (* counter.lost *)
  HEAD : Z;
  TAIL : Z;
  oldest_reserve : Z;
  oldeest_reserve : Z;
  nodes : gmap Z ring_buffer_node
}.

Definition set_lost (v : Z) (rb : ring_buffer) :=
  mk_rb (cache rb) (capacity rb) v (HEAD rb) (TAIL rb) (oldest_reserve rb)
        (oldeest_reserve rb) (nodes rb).
Definition set_HEAD (v : Z) (rb : ring_buffer) :=
  mk_rb (cache rb) (capacity rb) (lost rb) v (TAIL rb) (oldest_reserve rb)
        (oldeest_reserve rb) (nodes rb).
Definition set_TAIL (v : Z) (rb : ring_buffer) :=
  mk_rb (cache rb) (capacity rb) (lost rb) (HEAD rb) v (oldest_reserve rb)
        (oldeest_reserve rb) (nodes rb).
Definition set_oldest_reserve (v : Z) (rb : ring_buffer) :=
  mk_rb (cache rb) (capacity rb) (lost rb) (HEAD rb) (TAIL rb) v
        (oldeest_reserve rb) (nodes rb).
Definition set_oldeest_reserve (v : Z) (rb : ring_buffer) :=
  mk_rb (cache rb) (capacity rb) (lost rb) (HEAD rb) (TAIL rb)
        (oldest_reserve rb) v (nodes rb).
Definition set_nodes (v : gmap Z ring_buffer_node) (rb : ring_buffer) :=
  mk_rb (cache rb) (capacity rb) (lost rb) (HEAD rb) (TAIL rb)
        (oldest_reserve rb) (oldeest_reserve rb) v.

(** ** Memory access *)

(** [*p] for a node pointer [p]. *)
Definition node_at (rb : ring_buffer) (p : Z) : option ring_buffer_node :=
  if decide (p = NULL) then None else nodes rb !! p.

(** [p->field = v], given as the update [f] of the header at [p]. *)
Definition store (p : Z) (f : ring_buffer_node → ring_buffer_node)
    (rb : ring_buffer) : option ring_buffer :=
  if decide (p = NULL) then None
  else Some (set_nodes (<[p := f (default junk_node (nodes rb !! p))]> (nodes rb)) rb).

Global Arguments store : simpl never.
Global Arguments node_at : simpl never.

(** Flag values of [ring_buffer_flag_t]. *)
Definition ring_buffer_flag_overwrite : Z := Z.shiftl 1 0.
Definition ring_buffer_flag_discard : Z := Z.shiftl 1 1.
Definition ring_buffer_flag_consume_on_error : Z := Z.shiftl 1 2.

(** [flags & f] used as a C condition. *)
Definition has_flag (flags f : Z) : bool := negb (Z.land flags f =? 0).

(** ** The functions of RingBuffer.c *)

Definition _ring_buffer_node_cost (len : Z) : Z :=
  ALIGN_SIZE (wrap (sizeof_node + len)) sizeof_ptr.

Definition _ring_buffer_reinit (rb : ring_buffer) : ring_buffer :=
  set_TAIL NULL (set_HEAD NULL (set_oldest_reserve NULL rb)).

Definition _ring_buffer_reserve_empty (rb : ring_buffer) (data_len node_size : Z)
    : option (ring_buffer * Z) :=
  if node_size >? capacity rb then Some (rb, NULL)
  else
    let rb := set_HEAD (cache rb) rb in
    rb ← store (HEAD rb) (set_state writing) rb;
    rb ← store (HEAD rb) (set_len data_len) rb;
    rb ← store (HEAD rb) (set_p_forward (HEAD rb)) rb;
    rb ← store (HEAD rb) (set_p_backward (HEAD rb)) rb;
    rb ← store (HEAD rb) (set_p_newer NULL) rb;
    rb ← store (HEAD rb) (set_p_older NULL) rb;
    let rb := set_TAIL (HEAD rb) rb in
    let rb := set_oldest_reserve (HEAD rb) rb in
    Some (rb, token_of (oldest_reserve rb)).

Definition _ring_buffer_update_time_for_new_node (rb : ring_buffer) (new_node : Z)
    : option ring_buffer :=
  rb ← store new_node (set_p_newer NULL) rb;
  rb ← store new_node (set_p_older (HEAD rb)) rb;
  n ← node_at rb new_node;
  rb ← store (p_older n) (set_p_newer new_node) rb;
  Some (set_HEAD new_node rb).

(** The [while (1)] loop of [_ring_buffer_reserve_overwrite].  One unit of
    [fuel] is one evaluation of the loop body; the result is
    [(sum_size, lost_node, node_end)] at the [break]. *)
Fixpoint overwrite_walk (fuel : nat) (rb : ring_buffer) (node_size : Z)
    (sum_size lost_node node_end : Z) : option (Z * Z * Z) :=
  match fuel with
  | O => None
  | S fuel =>
    e ← node_at rb node_end;
    let sum_size := wrap (sum_size + _ring_buffer_node_cost (len e)) in
    if negb (sum_size <? node_size) then Some (sum_size, lost_node, node_end)
    else
      f ← node_at rb (p_forward e);
      if negb (bool_decide (state f = committed)) then Some (sum_size, lost_node, node_end)
      else if negb (p_forward e =? p_newer e) then Some (sum_size, lost_node, node_end)
      else if negb (p_forward e >? node_end) then Some (sum_size, lost_node, node_end)
      else overwrite_walk fuel rb node_size sum_size (wrap (lost_node + 1)) (p_forward e)
  end.

(** Every iteration after the first moves to a strictly higher address that
    holds a header, so the number of headers bounds the iterations. *)
Definition walk_fuel (rb : ring_buffer) : nat := S (size (nodes rb)).

Definition _ring_buffer_reserve_overwrite (rb : ring_buffer) (data_len node_size : Z)
    : option (ring_buffer * Z) :=
  if decide (oldest_reserve rb = NULL) then Some (rb, NULL)
  else
    o ← node_at rb (oldest_reserve rb);
    if negb (bool_decide (state o = committed)) then Some (rb, NULL)
    else if (p_forward o =? oldest_reserve rb) && (p_backward o =? oldest_reserve rb) then
      if capacity rb >=? node_size then
        let rb := set_lost (wrap (lost rb + 1)) rb in
        let rb := _ring_buffer_reinit rb in
        _ring_buffer_reserve_empty rb data_len node_size
      else Some (rb, NULL)
    else
      let node_start := oldest_reserve rb in
      '(sum_size, lost_node, node_end) ← overwrite_walk (walk_fuel rb) rb node_size 0 1 node_start;
      if sum_size <? node_size then Some (rb, NULL)
      else
        e ← node_at rb node_end;
        let rb := set_oldest_reserve (p_newer e) rb in
        (* update chain_pos *)
        e ← node_at rb node_end;
        rb ← store node_start (set_p_forward (p_forward e)) rb;
        e ← node_at rb node_end;
        rb ← store (p_forward e) (set_p_backward node_start) rb;
        (* update chain_time *)
        s ← node_at rb node_start;
        rb ← (if decide (p_older s = NULL) then Some rb
              else
                e ← node_at rb node_end;
                store (p_older s) (set_p_newer (p_newer e)) rb);
        e ← node_at rb node_end;
        s ← node_at rb node_start;
        rb ← store (p_newer e) (set_p_older (p_older s)) rb;
        rb ← _ring_buffer_update_time_for_new_node rb node_start;
        let rb := set_lost (wrap (lost rb + lost_node)) rb in
        rb ← store node_start (set_len data_len) rb;
        Some (rb, token_of node_start).

Definition _ring_buffer_insert_new_node (rb : ring_buffer) (new_node data_len : Z)
    : option ring_buffer :=
  rb ← store new_node (set_state writing) rb;
  rb ← store new_node (set_len data_len) rb;
  h ← node_at rb (HEAD rb);
  rb ← store new_node (set_p_forward (p_forward h)) rb;
  rb ← store new_node (set_p_backward (HEAD rb)) rb;
  n ← node_at rb new_node;
  rb ← store (p_forward n) (set_p_backward new_node) rb;
  n ← node_at rb new_node;
  rb ← store (p_backward n) (set_p_forward new_node) rb;
  _ring_buffer_update_time_for_new_node rb new_node.

Definition _ring_buffer_reserve_none_empty (rb : ring_buffer)
    (data_len node_size flags : Z) : option (ring_buffer * Z) :=
  h ← node_at rb (HEAD rb);
  let next_possible_node := HEAD rb + _ring_buffer_node_cost (len h) in
  if p_forward h >? HEAD rb then
    if wrap (p_forward h - next_possible_node) >=? node_size then
      rb ← _ring_buffer_insert_new_node rb next_possible_node data_len;
      Some (rb, token_of next_possible_node)
    else if has_flag flags ring_buffer_flag_overwrite
      then _ring_buffer_reserve_overwrite rb data_len node_size
      else Some (rb, NULL)
  else if wrap (capacity rb - (next_possible_node - cache rb)) >=? node_size then
    rb ← _ring_buffer_insert_new_node rb next_possible_node data_len;
    Some (rb, token_of next_possible_node)
  else if wrap (p_forward h - cache rb) >=? node_size then
    let next_possible_node := cache rb in
    rb ← _ring_buffer_insert_new_node rb next_possible_node data_len;
    Some (rb, token_of next_possible_node)
  else if has_flag flags ring_buffer_flag_overwrite
    then _ring_buffer_reserve_overwrite rb data_len node_size
    else Some (rb, NULL).

Definition _ring_buffer_commit_for_write_confirm (rb : ring_buffer) (node : Z)
    : option (ring_buffer * Z) :=
  rb ← store node (set_state committed) rb;
  Some (rb, 0).

Definition _ring_buffer_remove_node_chain_pos (rb : ring_buffer) (node : Z)
    : option ring_buffer :=
  n ← node_at rb node;
  rb ← store (p_backward n) (set_p_forward (p_forward n)) rb;
  n ← node_at rb node;
  store (p_forward n) (set_p_backward (p_backward n)) rb.

Definition _ring_buffer_remove_tail (rb : ring_buffer) : option ring_buffer :=
  rb ← _ring_buffer_remove_node_chain_pos rb (TAIL rb);
  t ← node_at rb (TAIL rb);
  rb ← store (p_newer t) (set_p_older NULL) rb;
  t ← node_at rb (TAIL rb);
  let next_node := p_newer t in
  let rb := if decide (oldest_reserve rb = TAIL rb)
            then set_oldest_reserve next_node rb else rb in
  Some (set_TAIL next_node rb).

Definition _ring_buffer_remove_head (rb : ring_buffer) : option ring_buffer :=
  rb ← _ring_buffer_remove_node_chain_pos rb (HEAD rb);
  h ← node_at rb (HEAD rb);
  rb ← store (p_older h) (set_p_newer NULL) rb;
  let rb := if decide (oldest_reserve rb = HEAD rb)
            then set_oldest_reserve NULL rb else rb in
  h ← node_at rb (HEAD rb);
  Some (set_HEAD (p_older h) rb).

Definition _ring_buffer_delete_node (rb : ring_buffer) (node : Z)
    : option ring_buffer :=
  n ← node_at rb node;
  if (p_backward n =? node) && (p_forward n =? node) then Some (_ring_buffer_reinit rb)
  else if decide (p_older n = NULL) then _ring_buffer_remove_tail rb
  else if decide (p_newer n = NULL) then _ring_buffer_remove_head rb
  else
    rb ← _ring_buffer_remove_node_chain_pos rb node;
    n ← node_at rb node;
    rb ← store (p_older n) (set_p_newer (p_newer n)) rb;
    n ← node_at rb node;
    rb ← store (p_newer n) (set_p_older (p_older n)) rb;
    n ← node_at rb node;
    Some (if decide (oldest_reserve rb = node)
          then set_oldest_reserve (p_newer n) rb else rb).

Definition _ring_buffer_commit_for_write_discard (rb : ring_buffer) (node : Z)
    : option (ring_buffer * Z) :=
  rb ← _ring_buffer_delete_node rb node;
  Some (rb, 0).

Definition _ring_buffer_commit_for_write (rb : ring_buffer) (node flags : Z)
    : option (ring_buffer * Z) :=
  if has_flag flags ring_buffer_flag_discard
  then _ring_buffer_commit_for_write_discard rb node
  else _ring_buffer_commit_for_write_confirm rb node.

Definition _ring_buffer_commit_for_consume_confirm (rb : ring_buffer) (node : Z)
    : option (ring_buffer * Z) :=
  rb ← _ring_buffer_delete_node rb node;
  Some (rb, 0).

Definition _ring_buffer_commit_for_consume_discard (rb : ring_buffer) (node flags : Z)
    : option (ring_buffer * Z) :=
  n ← node_at rb node;
  newer_reading ←
    (if decide (p_newer n = NULL) then Some false
     else w ← node_at rb (p_newer n); Some (bool_decide (state w = reading)));
  if newer_reading : bool then
    if has_flag flags ring_buffer_flag_consume_on_error
    then _ring_buffer_commit_for_consume_confirm rb node
    else Some (rb, -1)
  else
    rb ← store node (set_state committed) rb;
    n ← node_at rb node;
    if decide (p_newer n = NULL) then Some (set_oldest_reserve node rb, 0)
    else
      just_older ←
        (if decide (oldest_reserve rb = NULL) then Some false
         else o ← node_at rb (oldest_reserve rb); Some (p_older o =? node));
      if just_older : bool then Some (set_oldeest_reserve node rb, 0)
      else Some (rb, 0).

Definition _ring_buffer_commit_for_consume (rb : ring_buffer) (node flags : Z)
    : option (ring_buffer * Z) :=
  if has_flag flags ring_buffer_flag_discard
  then _ring_buffer_commit_for_consume_discard rb node flags
  else _ring_buffer_commit_for_consume_confirm rb node.

Definition ring_buffer_heap_cost : Z := ALIGN_SIZE sizeof_ring_buffer sizeof_ptr.

Definition ring_buffer_node_cost (len : Z) : Z := _ring_buffer_node_cost len.

(** [ring_buffer_init]: [None] is the [NULL] return.  The function performs
    no access that can be undefined.  The cache starts with no header. *)
Definition ring_buffer_init (buffer size : Z) : option ring_buffer :=
  let rb := ALIGN_PTR buffer sizeof_ptr in
  let leading_align_size := wrap (rb - buffer) in
  if wrap (leading_align_size + ring_buffer_heap_cost) >=? size then None
  else
    Some (_ring_buffer_reinit
            (mk_rb (rb + ring_buffer_heap_cost)
                   (wrap (wrap (size - leading_align_size) - ring_buffer_heap_cost))
                   0 NULL NULL NULL NULL ∅)).

Definition ring_buffer_exit (rb : ring_buffer) : Z := 0.

Definition ring_buffer_reserve (rb : ring_buffer) (len flags : Z)
    : option (ring_buffer * Z) :=
  let node_size := _ring_buffer_node_cost len in
  if decide (TAIL rb = NULL) then _ring_buffer_reserve_empty rb len node_size
  else _ring_buffer_reserve_none_empty rb len node_size flags.

(** [ring_buffer_consume(rb, lost)].  [lost_p] is the out-pointer; the third
    component of the result is the value stored through it, if any. *)
Definition ring_buffer_consume (rb : ring_buffer) (lost_p : Z)
    : option (ring_buffer * Z * option Z) :=
  if decide (oldest_reserve rb = NULL) then Some (rb, NULL, None)
  else
    o ← node_at rb (oldest_reserve rb);
    if negb (bool_decide (state o = committed)) then Some (rb, NULL, None)
    else
      let out := if decide (lost_p = NULL) then None else Some (lost rb) in
      let rb := set_lost 0 rb in
      let token_node := oldest_reserve rb in
      o ← node_at rb (oldest_reserve rb);
      let rb := set_oldest_reserve (p_newer o) rb in
      rb ← store token_node (set_state reading) rb;
      Some (rb, token_of token_node, out).

Definition ring_buffer_commit (rb : ring_buffer) (token flags : Z)
    : option (ring_buffer * Z) :=
  let node := CONTAINER_FOR token in
  n ← node_at rb node;
  if bool_decide (state n = writing)
  then _ring_buffer_commit_for_write rb node flags
  else _ring_buffer_commit_for_consume rb node flags.

(** [ring_buffer_foreach].  The visitor [cb] receives the token, the state
    code and its own context, and returns the next context and its [int]
    result.  [fuel] bounds the evaluations of the loop condition; [counter++]
    past [INT_MAX] is undefined and gives [None]. *)
Fixpoint foreach_loop {A : Type} (fuel : nat) (rb : ring_buffer)
    (cb : Z → Z → A → A * Z) (arg : A) (counter node : Z) : option (Z * A) :=
  match fuel with
  | O => None
  | S fuel =>
    if decide (node = NULL) then Some (counter, arg)
    else
      n ← node_at rb node;
      let '(arg, r) := cb (token_of node) (state_code (state n)) arg in
      if r <? 0 then Some (counter, arg)
      else if counter >=? INT_MAX then None
      else foreach_loop fuel rb cb arg (counter + 1) (p_newer n)
  end.

Definition ring_buffer_foreach {A : Type} (fuel : nat) (rb : ring_buffer)
    (cb : Z → Z → A → A * Z) (arg : A) : option (Z * A) :=
  foreach_loop fuel rb cb arg 0 (TAIL rb).

(** ** Operation sequences *)

Inductive op : Set :=
  | Reserve (len flags : Z)
  | Commit (token flags : Z)
  | Consume (lost_p : Z).

(** What a call hands back to the caller. *)
Inductive ret : Set :=
  | RToken (token : Z)                      (* reserve *)
  | RStatus (r : Z)                         (* commit *)
  | RConsumed (token : Z) (out : option Z). (* consume, and [*lost] if stored *)

Definition exec (rb : ring_buffer) (o : op) : option (ring_buffer * ret) :=
  match o with
  | Reserve len flags =>
      '(rb, t) ← ring_buffer_reserve rb len flags; Some (rb, RToken t)
  | Commit token flags =>
      '(rb, r) ← ring_buffer_commit rb token flags; Some (rb, RStatus r)
  | Consume lost_p =>
      '(rb, t, out) ← ring_buffer_consume rb lost_p; Some (rb, RConsumed t out)
  end.

Fixpoint run (rb : ring_buffer) (ops : list op) : option (ring_buffer * list ret) :=
  match ops with
  | [] => Some (rb, [])
  | o :: ops =>
      '(rb, r) ← exec rb o;
      '(rb, rs) ← run rb ops;
      Some (rb, r :: rs)
  end.

(** ** Chains as lists *)

(** [time_list rb p l]: following [chain_time.p_newer] from [p] visits exactly
    the addresses [l] and then reaches [NULL]. *)
Inductive time_list (rb : ring_buffer) : Z → list Z → Prop :=
  | time_list_nil : time_list rb NULL []
  | time_list_cons p n l :
      node_at rb p = Some n →
      time_list rb (p_newer n) l →
      time_list rb p (p :: l).

(** The same walk as a function, for evaluation on concrete buffers. *)
Fixpoint time_chain (fuel : nat) (rb : ring_buffer) (p : Z) : list Z :=
  match fuel with
  | O => []
  | S fuel =>
    match node_at rb p with
    | None => []
    | Some n => p :: time_chain fuel rb (p_newer n)
    end
  end.

Definition state_at (rb : ring_buffer) (p : Z) : option ring_buffer_node_state :=
  state <$> node_at rb p.

(** ** The overwrite walk, from the four conditions

    [absorbable rb node_size sum cur nxt]: with [sum] accumulated up to and
    including [cur], the walk moves on from [cur] to [nxt]. *)
Definition absorbable (rb : ring_buffer) (node_size sum cur nxt : Z) : Prop :=
  ∃ e f, node_at rb cur = Some e ∧ node_at rb nxt = Some f ∧
    nxt = p_forward e ∧
    sum < node_size ∧            (* (i) *)
    state f = committed ∧        (* (ii) *)
    p_forward e = p_newer e ∧    (* (iii) *)
    cur < p_forward e.           (* (iv) *)

(** [stops_at rb node_size sum cur]: one of the four conditions fails at
    [cur], the ones before the failing one being evaluable. *)
Definition stops_at (rb : ring_buffer) (node_size sum cur : Z) : Prop :=
  ∃ e, node_at rb cur = Some e ∧
    (node_size ≤ sum ∨
     ∃ f, node_at rb (p_forward e) = Some f ∧
       (state f ≠ committed ∨ p_forward e ≠ p_newer e ∨ p_forward e ≤ cur)).

(** [walk_run rb node_size acc cur l sum]: entering node [cur] with [acc]
    bytes accumulated, the walk covers the nodes [l] (first [cur]) and ends
    with [sum] bytes. *)
Inductive walk_run (rb : ring_buffer) (node_size : Z)
    : Z → Z → list Z → Z → Prop :=
  | walk_run_stop acc cur e :
      node_at rb cur = Some e →
      stops_at rb node_size (wrap (acc + _ring_buffer_node_cost (len e))) cur →
      walk_run rb node_size acc cur [cur] (wrap (acc + _ring_buffer_node_cost (len e)))
  | walk_run_step acc cur e l sum :
      node_at rb cur = Some e →
      absorbable rb node_size (wrap (acc + _ring_buffer_node_cost (len e))) cur (p_forward e) →
      walk_run rb node_size (wrap (acc + _ring_buffer_node_cost (len e))) (p_forward e) l sum →
      walk_run rb node_size acc cur (cur :: l) sum.

(** [oldest_reserve] is the only node of the buffer. *)
Definition sole_node (rb : ring_buffer) (o : ring_buffer_node) : Prop :=
  p_forward o = oldest_reserve rb ∧ p_backward o = oldest_reserve rb.

(** ** A visitor that keeps a log

    [log_cb cb] behaves as [cb] and appends the token and the result of
    every invocation to a log kept next to the visitor's own context. *)
Definition log_cb {A : Type} (cb : Z → Z → A → A * Z)
    : Z → Z → (A * list (Z * Z)) → (A * list (Z * Z)) * Z :=
  λ token st '(a, log),
    let '(a', r) := cb token st a in ((a', log ++ [(token, r)]), r).

(** [ring_buffer_init] followed by a sequence of calls. *)
Definition boot (buffer size : Z) (ops : list op) : option (ring_buffer * list ret) :=
  rb ← ring_buffer_init buffer size; run rb ops.

(** A visitor result that lets the walk go on. *)
Definition nonneg_result (e : Z * Z) : Prop := 0 ≤ e.2.
Global Instance nonneg_result_dec e : Decision (nonneg_result e).
Proof. unfold nonneg_result. apply _. Defined.

(** The buffer after [init] on 304 bytes at 4096 and two [reserve(8, 0)]. *)
Definition two_node_buffer : ring_buffer :=
  mk_rb 4144 256 0 4200 4144 4144 0
    (<[4200 := mk_node 4144 4144 0 4144 writing 8]>
       (<[4144 := mk_node 4200 4200 4200 0 writing 8]> ∅)).

(** Three records of 8 bytes reserved and write-confirmed in turn, on the
    buffer of [boot 4096 304]: nodes at 4144, 4200 and 4256. *)
Definition three_committed : list op :=
  [Reserve 8 0; Commit 4184 0; Reserve 8 0; Commit 4240 0; Reserve 8 0; Commit 4296 0].

(** The buffer of [boot 4096 304] after three reservations of 8, 8 and 96
    bytes and the removal of the first: [HEAD] is the node at 4256, which
    ends where the cache ends, and its position successor is the node at
    4200.  The header at 4144 is what the removed node left behind. *)
Definition wrapped_buffer : ring_buffer :=
  mk_rb 4144 256 0 4256 4200 4200 0
    (<[4256 := mk_node 4200 4200 0 4200 writing 96]>
       (<[4200 := mk_node 4256 4256 4256 0 writing 8]>
          (<[4144 := mk_node 4200 4256 4200 0 reading 8]> ∅))).

(** [lost_node] after [n] more executions of [lost_node++]. *)
Definition bump (n : nat) (c : Z) : Z := Nat.iter n (λ c, wrap (c + 1)) c.



(** The buffer of [boot 4096 304] holding one committed record of 8 bytes. *)
Definition one_committed_buffer : ring_buffer :=
  mk_rb 4144 256 0 4144 4144 4144 0
    (<[4144 := mk_node 4144 4144 0 0 committed 8]> ∅).

(** The same buffer holding two committed records of 60 bytes, 112 bytes of
    cache each. *)
Definition two_committed_buffer : ring_buffer :=
  mk_rb 4144 256 0 4256 4144 4144 0
    (<[4256 := mk_node 4144 4144 0 4144 committed 60]>
       (<[4144 := mk_node 4256 4256 4256 0 committed 60]> ∅)).

(** ** Neighbours in a list of addresses *)

(** The element after the first occurrence of [a]. *)
Fixpoint lnext (l : list Z) (a : Z) : option Z :=
  match l with
  | [] => None
  | x :: t => if decide (x = a) then head t else lnext t a
  end.

(** Time chain: the newer and the older neighbour, [NULL] at the ends. *)
Definition tnext (ts : list Z) (a : Z) : Z := default NULL (lnext ts a).
Definition tprev (ts : list Z) (a : Z) : Z := default NULL (lnext (reverse ts) a).

(** Position chain: the neighbours in the ring. *)
Definition cnext (ps : list Z) (a : Z) : Z := default NULL (lnext (ps ++ take 1 ps) a).
Definition cprev (ps : list Z) (a : Z) : Z := cnext (reverse ps) a.

(** [l'] is [l] read from another starting point of the ring. *)
Definition rot (l l' : list Z) : Prop := ∃ l1 l2, l = l1 ++ l2 ∧ l' = l2 ++ l1.

(** Pointwise update of a field function. *)
Definition upd {A : Type} (p : Z) (v : A) (f : Z → A) : Z → A :=
  λ q, if decide (q = p) then v else f q.

(** ** Headers as field functions

    [fields] gives every field of every header as a function of the
    address; a store changes one function at one address. *)
Record fields : Type := mk_fields {
  fF : Z → Z;                        (* p_forward *)
  fB : Z → Z;                        (* p_backward *)
  fN : Z → Z;                        (* p_newer *)
  fO : Z → Z;                        (* p_older *)
  fS : Z → ring_buffer_node_state;   (* state *)
  fL : Z → Z                         (* len *)
}.

Definition node_in (φ : fields) (q : Z) : ring_buffer_node :=
  mk_node (fF φ q) (fB φ q) (fN φ q) (fO φ q) (fS φ q) (fL φ q).

(** [φ] with the header at [p] replaced by [n]. *)
Definition fields_set (p : Z) (n : ring_buffer_node) (φ : fields) : fields :=
  mk_fields (upd p (p_forward n) (fF φ)) (upd p (p_backward n) (fB φ))
            (upd p (p_newer n) (fN φ)) (upd p (p_older n) (fO φ))
            (upd p (state n) (fS φ)) (upd p (len n) (fL φ)).

(** The headers at the addresses [S] are the ones [φ] describes. *)
Definition models (rb : ring_buffer) (S : list Z) (φ : fields) : Prop :=
  ∀ q, q ∈ S → node_at rb q = Some (node_in φ q).

(** The outcome of a store to a node of [S]: the header is untouched and the
    nodes of [S] read as [φ']. *)
Definition stored (rb : ring_buffer) (S : list Z) (p : Z)
    (f : ring_buffer_node → ring_buffer_node) (φ' : fields) : Prop :=
  ∃ rb', store p f rb = Some rb' ∧
    cache rb' = cache rb ∧ capacity rb' = capacity rb ∧ lost rb' = lost rb ∧
    HEAD rb' = HEAD rb ∧ TAIL rb' = TAIL rb ∧
    oldest_reserve rb' = oldest_reserve rb ∧
    models rb' S φ'.

(** ** The two chains as lists

    [ts] lists the nodes of the buffer from [TAIL] to [HEAD]; [ps] lists the
    same nodes by ascending address.  [st] and [ln] give the state and the
    length of each node. *)
Definition chain_fields (ts ps : list Z) (st : Z → ring_buffer_node_state)
    (ln : Z → Z) : fields :=
  mk_fields (cnext ps) (cprev ps) (tnext ts) (tprev ts) st ln.

Definition Rep (rb : ring_buffer) (ts ps : list Z)
    (st : Z → ring_buffer_node_state) (ln : Z → Z) : Prop :=
  models rb ts (chain_fields ts ps st ln) ∧
  TAIL rb = default NULL (head ts) ∧
  HEAD rb = default NULL (last ts).

(** ** Layout of the nodes in the cache *)

(** A payload length whose node size does not wrap around. *)
Definition valid_len (l : Z) : Prop := 0 ≤ l ∧ l + 55 < SIZE_MAX1.



(** ** Records, and the order in which they move through the buffer

    A record is one successful [reserve]: the [k]-th one has number [k].
    Node addresses are used again, so the owner map remembers which record
    lives at each address.  The other fields keep the history of the calls:
    the tokens handed out and not yet given back, the records committed
    by a write-confirm (in that order), the records handed out by [consume]
    (in that order), and the records removed by an overwriting [reserve]. *)
Record ghost : Type := mk_ghost {
  g_rb : ring_buffer;
  g_owner : gmap Z nat;
  g_next : nat;
  g_tokens : list Z;
  g_confirmed : list nat;
  g_consumed : list nat;
  g_evicted : list nat
}.

Definition oid (m : gmap Z nat) (a : Z) : nat := default 0%nat (m !! a).

Definition g_set_rb (rb : ring_buffer) (g : ghost) : ghost :=
  mk_ghost rb (g_owner g) (g_next g) (g_tokens g) (g_confirmed g) (g_consumed g)
    (g_evicted g).

(** One call, with the history kept.  A [reserve] that raises [lost] by [k]
    has removed the [k] nodes that follow [oldest_reserve] in the time chain;
    a [commit] is a write-confirm when the node was in state [writing] and
    [DISCARD] is not set, and it returns the token unless it fails. *)
Definition gstep (g : ghost) (o : op) : option ghost :=
  let rb := g_rb g in
  match o with
  | Reserve len flags =>
      '(rb', t) ← ring_buffer_reserve rb len flags;
      if decide (t = NULL) then Some (g_set_rb rb' g)
      else
        let gone := take (Z.to_nat (wrap (lost rb' - lost rb)))
                      (time_chain (walk_fuel rb) rb (oldest_reserve rb)) in
        Some (mk_ghost rb' (<[CONTAINER_FOR t := g_next g]> (g_owner g))
                (S (g_next g)) (t :: g_tokens g) (g_confirmed g) (g_consumed g)
                (g_evicted g ++ (oid (g_owner g) <$> gone)))
  | Commit token flags =>
      n ← node_at rb (CONTAINER_FOR token);
      '(rb', r) ← ring_buffer_commit rb token flags;
      Some (mk_ghost rb' (g_owner g) (g_next g)
              (if decide (r = 0) then filter (λ t, t ≠ token) (g_tokens g)
               else g_tokens g)
              (if bool_decide (state n = writing)
                  && negb (has_flag flags ring_buffer_flag_discard)
               then g_confirmed g ++ [oid (g_owner g) (CONTAINER_FOR token)]
               else g_confirmed g)
              (g_consumed g) (g_evicted g))
  | Consume lost_p =>
      '(rb', t, _) ← ring_buffer_consume rb lost_p;
      if decide (t = NULL) then Some (g_set_rb rb' g)
      else
        Some (mk_ghost rb' (g_owner g) (g_next g) (t :: g_tokens g)
                (g_confirmed g)
                (g_consumed g ++ [oid (g_owner g) (CONTAINER_FOR t)])
                (g_evicted g))
  end.



(** The calls this development follows: a [reserve] asks for a length whose
    node size does not wrap and passes [OVERWRITE] only while the buffer
    holds at most one node; a [commit] gives back a token that is out, and
    passes [DISCARD] only for a node being written. *)
Definition clean (g : ghost) (o : op) : Prop :=
  match o with
  | Reserve len flags =>
      valid_len len ∧
      (has_flag flags ring_buffer_flag_overwrite = true →
       HEAD (g_rb g) = TAIL (g_rb g))
  | Commit token flags =>
      token ∈ g_tokens g ∧
      (has_flag flags ring_buffer_flag_discard = true →
       state_at (g_rb g) (CONTAINER_FOR token) = Some writing)
  | Consume _ => True
  end.

Global Instance clean_dec g o : Decision (clean g o).
Proof. destruct o; simpl; unfold valid_len; apply _. Defined.

Fixpoint clean_run (g : ghost) (ops : list op) : Prop :=
  match ops with
  | [] => True
  | o :: ops =>
      clean g o ∧
      match gstep g o with
      | Some g' => clean_run g' ops
      | None => True
      end
  end.

Global Instance clean_run_dec g ops : Decision (clean_run g ops).
Proof.
  revert g. induction ops as [|o ops IH]; intros g; simpl; [apply _|].
  destruct (gstep g o); apply _.
Defined.





(** Three records of 8 bytes, all write-confirmed, the two oldest handed to
    readers: the buffer of [boot 4096 304] after [three_committed] and two
    [consume]. *)
Definition two_readers_buffer : ring_buffer :=
  mk_rb 4144 256 0 4256 4144 4256 0
    (<[4256 := mk_node 4144 4200 0 4200 committed 8]>
       (<[4200 := mk_node 4256 4144 4256 4144 reading 8]>
          (<[4144 := mk_node 4200 4256 4200 0 reading 8]> ∅))).


(** A buffer with free room between [HEAD] and its position successor: of
    three records at 4144, 4200 and 4256 the two oldest were consumed and
    given back, and one more record was reserved at the start of the cache.
    (The header at 4200 is what the deleted node left behind.) *)
Definition gap_buffer : ring_buffer :=
  mk_rb 4144 256 0 4144 4256 4256 0
    (<[4256 := mk_node 4144 4144 4144 0 writing 96]>
       (<[4200 := mk_node 4256 4256 4256 0 reading 8]>
          (<[4144 := mk_node 4256 4256 0 4256 writing 8]> ∅))).


(** ** Theorems *)

(** *** Machine arithmetic *)

Lemma wrap_small z : 0 ≤ z < SIZE_MAX1 → wrap z = z.
Proof. intros. unfold wrap. by apply Z.mod_small. Qed.

Lemma wrap_range z : 0 ≤ wrap z < SIZE_MAX1.
Proof. unfold wrap. apply Z.mod_pos_bound. reflexivity. Qed.

Lemma land_align_mask a :
  0 ≤ a < SIZE_MAX1 → Z.land a (wrap (Z.lnot 7)) = 8 * (a / 8).
Proof.
  intros Ha.
  replace (wrap (Z.lnot 7)) with (Z.shiftl (Z.ones 61) 3) by reflexivity.
  apply Z.bits_inj'. intros n Hn.
  rewrite Z.land_spec.
  replace (8 * (a / 8)) with (Z.shiftl (Z.shiftr a 3) 3).
  2:{ rewrite Z.shiftl_mul_pow2, Z.shiftr_div_pow2 by lia. change (2^3) with 8. lia. }
  destruct (Z.lt_ge_cases n 3).
  - rewrite !Z.shiftl_spec_low by lia. apply andb_false_r.
  - rewrite !Z.shiftl_spec by lia. rewrite Z.shiftr_spec by lia.
    replace (n - 3 + 3) with n by lia.
    destruct (Z.lt_ge_cases (n - 3) 61).
    + rewrite Z.ones_spec_low by lia. apply andb_true_r.
    + rewrite Z.ones_spec_high by lia. rewrite andb_false_r.
      symmetry. apply Z.bits_above_log2; [lia|].
      destruct (Z.eq_dec a 0) as [->|]; [simpl; lia|].
      apply Z.log2_lt_pow2; [lia|].
      unfold SIZE_MAX1 in Ha.
      assert (2 ^ 64 ≤ 2 ^ n) by (apply Z.pow_le_mono_r; lia). lia.
Qed.

Lemma ALIGN_SIZE_8 x :
  0 ≤ x → x + 7 < SIZE_MAX1 → ALIGN_SIZE x sizeof_ptr = 8 * ((x + 7) / 8).
Proof.
  intros H0 H1. unfold ALIGN_SIZE, sizeof_ptr.
  change (wrap (wrap 8 - 1)) with 7.
  rewrite (wrap_small x) by (unfold SIZE_MAX1 in *; lia).
  rewrite (wrap_small (x + 7)) by (unfold SIZE_MAX1 in *; lia).
  apply land_align_mask. unfold SIZE_MAX1 in *; lia.
Qed.

Lemma ALIGN_SIZE_range x a : 0 ≤ ALIGN_SIZE x a < SIZE_MAX1.
Proof.
  unfold ALIGN_SIZE.
  pose proof (wrap_range (wrap x + wrap (wrap a - 1))) as H1.
  pose proof (wrap_range (Z.lnot (wrap (wrap a - 1)))) as H2.
  set (u := wrap (wrap x + wrap (wrap a - 1))) in *.
  set (v := wrap (Z.lnot (wrap (wrap a - 1)))) in *.
  assert (0 ≤ Z.land u v) as H0 by (apply Z.land_nonneg; lia).
  split; [done|].
  destruct (Z.eq_dec (Z.land u v) 0) as [->|Hne]; [done|].
  destruct (Z.eq_dec u 0) as [Hu|Hu]; [rewrite Hu, Z.land_0_l in Hne; done|].
  unfold SIZE_MAX1 in *.
  apply Z.log2_lt_pow2; [lia|].
  pose proof (Z.log2_land u v) as Hl.
  assert (Z.log2 u < 64) by (apply Z.log2_lt_pow2; lia).
  lia.
Qed.

Lemma node_cost_range len : 0 ≤ _ring_buffer_node_cost len < SIZE_MAX1.
Proof. apply ALIGN_SIZE_range. Qed.

Lemma node_cost_small len :
  0 ≤ len → len + 55 < SIZE_MAX1 →
  _ring_buffer_node_cost len = 8 * ((len + 55) / 8).
Proof.
  intros H0 H1. unfold _ring_buffer_node_cost, sizeof_node.
  rewrite (wrap_small (48 + len)) by (unfold SIZE_MAX1 in *; lia).
  rewrite ALIGN_SIZE_8 by lia. f_equal. f_equal. lia.
Qed.

Lemma heap_cost_value : ring_buffer_heap_cost = 48.
Proof. reflexivity. Qed.

Lemma node_cost_0 : ring_buffer_node_cost 0 = 48.
Proof. reflexivity. Qed.

(** *** Initialisation *)

Lemma ALIGN_PTR_pad buffer :
  0 ≤ buffer → buffer + 7 < SIZE_MAX1 →
  ALIGN_PTR buffer sizeof_ptr = buffer + (- buffer) mod 8.
Proof.
  intros H0 H1. unfold ALIGN_PTR. rewrite ALIGN_SIZE_8 by done.
  Z.div_mod_to_equations. lia.
Qed.

(** C6, as the source has it: [ring_buffer_init] returns [NULL] exactly when
    the region is no larger than the alignment padding plus the header, so a
    returned handle has a cache of at least one byte (not of at least one
    minimum node), placed right after the header. *)
Theorem init_succeeds_iff_one_cache_byte buffer size :
  0 ≤ buffer → buffer + 7 < SIZE_MAX1 → 0 ≤ size < SIZE_MAX1 →
  let pad := (- buffer) mod 8 in
  (ring_buffer_init buffer size = None ↔ size ≤ pad + ring_buffer_heap_cost) ∧
  (∀ rb, ring_buffer_init buffer size = Some rb →
     cache rb = buffer + pad + ring_buffer_heap_cost ∧
     capacity rb = size - pad - ring_buffer_heap_cost ∧
     1 ≤ capacity rb ∧
     lost rb = 0 ∧ HEAD rb = NULL ∧ TAIL rb = NULL ∧ oldest_reserve rb = NULL ∧
     nodes rb = ∅).
Proof.
  intros H0 H1 Hs pad.
  assert (0 ≤ pad < 8) as Hpad by (apply Z.mod_pos_bound; lia).
  unfold ring_buffer_init. rewrite ALIGN_PTR_pad by done.
  rewrite heap_cost_value. fold pad.
  replace (buffer + pad - buffer) with pad by lia.
  unfold SIZE_MAX1 in *.
  rewrite (wrap_small pad) by (unfold SIZE_MAX1; lia).
  rewrite (wrap_small (pad + 48)) by (unfold SIZE_MAX1; lia).
  destruct (Z.geb_spec (pad + 48) size) as [Hge|Hlt].
  - split; [split; [lia|done]|]. intros rb [=].
  - split; [split; [done|lia]|]. intros rb [= <-]. simpl.
    rewrite (wrap_small (size - pad)) by (unfold SIZE_MAX1; lia).
    rewrite (wrap_small (size - pad - 48)) by (unfold SIZE_MAX1; lia).
    repeat split; try done; lia.
Qed.

Lemma init_succeeds_iff_one_cache_byte_witness :
  (ring_buffer_init 4099 60 = None ↔ 60 ≤ (- 4099) mod 8 + ring_buffer_heap_cost) ∧
  (∀ rb, ring_buffer_init 4099 60 = Some rb →
     cache rb = 4099 + (- 4099) mod 8 + ring_buffer_heap_cost ∧
     capacity rb = 60 - (- 4099) mod 8 - ring_buffer_heap_cost ∧
     1 ≤ capacity rb ∧
     lost rb = 0 ∧ HEAD rb = NULL ∧ TAIL rb = NULL ∧ oldest_reserve rb = NULL ∧
     nodes rb = ∅).
Proof.
  apply (init_succeeds_iff_one_cache_byte 4099 60);
    unfold SIZE_MAX1; lia.
Defined.

(** C6, as stated, fails: an aligned region of
    [heap_cost() + node_cost(0) - 1] bytes is accepted, and its cache is one
    byte short of the smallest node. *)
Lemma init_accepts_region_below_one_node :
  ∃ rb, ring_buffer_init 4096 (ring_buffer_heap_cost + ring_buffer_node_cost 0 - 1) = Some rb
        ∧ capacity rb = ring_buffer_node_cost 0 - 1.
Proof. eexists. split; reflexivity. Qed.

Lemma foreach_loop_log {A : Type} (rb : ring_buffer) (cb : Z → Z → A → A * Z) l p :
  time_list rb p l →
  ∀ fuel arg log0 c0,
    (length l < fuel)%nat → c0 + Z.of_nat (length l) ≤ INT_MAX →
    ∃ c arg' log,
      foreach_loop fuel rb (log_cb cb) (arg, log0) c0 p = Some (c, (arg', log0 ++ log)) ∧
      foreach_loop fuel rb cb arg c0 p = Some (c, arg') ∧
      log.*1 `prefix_of` (token_of <$> l) ∧
      c = c0 + Z.of_nat (length (filter nonneg_result log)) ∧
      (∀ i e, log !! i = Some e → (S i < length log)%nat → 0 ≤ e.2) ∧
      ((length log < length l)%nat → ∃ e, last log = Some e ∧ e.2 < 0).
Proof.
  induction 1 as [|p n l Hn Hl IH]; intros fuel arg log0 c0 Hfuel Hc.
  - destruct fuel as [|fuel]; [simpl in Hfuel; lia|].
    exists c0, arg, []. simpl. rewrite app_nil_r.
    split_and!; try done; try lia; try apply prefix_nil.
  - destruct fuel as [|fuel]; [simpl in Hfuel; lia|].
    simpl in Hfuel, Hc. simpl.
    assert (p ≠ NULL) as Hp.
    { intros ->. unfold node_at in Hn. by rewrite decide_True in Hn. }
    rewrite !decide_False by done. rewrite Hn. simpl.
    destruct (cb (token_of p) (state_code (state n)) arg) as [arg1 r] eqn:Hcb.
    destruct (Z.ltb_spec r 0) as [Hneg|Hpos].
    + exists c0, arg1, [(token_of p, r)]. simpl.
      split_and!; [done|done|..].
      * apply prefix_cons, prefix_nil.
      * rewrite filter_cons_False; [simpl; lia|]. unfold nonneg_result. simpl. lia.
      * intros [|i] e; simpl; [lia|]. intros _ ?. lia.
      * intros _. eexists. split; [done|]. done.
    + destruct (Z.geb_spec c0 INT_MAX) as [Hbig|Hok]; [lia|].
      destruct (IH fuel arg1 (log0 ++ [(token_of p, r)]) (c0 + 1))
        as (c & arg' & log & H1 & H2 & H3 & H4 & H5 & H6); [lia|lia|].
      exists c, arg', ((token_of p, r) :: log).
      rewrite <- app_assoc in H1. simpl in H1.
      split_and!; [done|done|..].
      * simpl. by apply prefix_cons.
      * rewrite filter_cons_True by (unfold nonneg_result; simpl; lia).
        simpl length. lia.
      * intros [|i] e; simpl.
        -- intros [= <-] _. simpl. lia.
        -- intros He Hi. apply (H5 i e He). lia.
      * simpl. intros Hlen. destruct H6 as (e & He & Hneg); [lia|].
        exists e. split; [|done].
        destruct log; [done|]. by rewrite last_cons_cons.
Qed.

Lemma two_node_buffer_reachable :
  boot 4096 304 [Reserve 8 0; Reserve 8 0]
  = Some (two_node_buffer, [RToken 4184; RToken 4240]).
Proof. vm_compute. reflexivity. Qed.

Lemma two_node_buffer_time_list :
  time_list two_node_buffer (TAIL two_node_buffer) [4144; 4200].
Proof.
  eapply time_list_cons; [reflexivity|].
  eapply time_list_cons; [reflexivity|].
  apply time_list_nil.
Qed.

(** C9, as the source has it: with the time chain from [TAIL] being [l],
    [ring_buffer_foreach] invokes the visitor on a prefix of [l], every
    invocation but the last returned a non-negative value, the walk stops
    short of the end of [l] only after a negative result, and the value
    returned is the number of invocations that returned a non-negative value
    (the node on which the visitor returned a negative value is not
    counted). *)
Theorem foreach_counts_nonnegative_visits {A : Type} (rb : ring_buffer)
    (cb : Z → Z → A → A * Z) (arg : A) (l : list Z) (fuel : nat) :
  time_list rb (TAIL rb) l →
  (length l < fuel)%nat →
  Z.of_nat (length l) ≤ INT_MAX →
  ∃ c arg' log,
    ring_buffer_foreach fuel rb cb arg = Some (c, arg') ∧
    ring_buffer_foreach fuel rb (log_cb cb) (arg, []) = Some (c, (arg', log)) ∧
    log.*1 `prefix_of` (token_of <$> l) ∧
    (∀ i e, log !! i = Some e → (S i < length log)%nat → 0 ≤ e.2) ∧
    ((length log < length l)%nat → ∃ e, last log = Some e ∧ e.2 < 0) ∧
    c = Z.of_nat (length (filter nonneg_result log)).
Proof.
  intros Hl Hfuel Hlen.
  destruct (foreach_loop_log rb cb l (TAIL rb) Hl fuel arg [] 0)
    as (c & arg' & log & H1 & H2 & H3 & H4 & H5 & H6); [done|lia|].
  exists c, arg', log. unfold ring_buffer_foreach. simpl in H1.
  split_and!; try done; lia.
Qed.

Lemma foreach_counts_nonnegative_visits_witness :
  ∃ c arg' log,
    ring_buffer_foreach 3 two_node_buffer (λ _ st n, (n + 1, st - 1)) 0 = Some (c, arg') ∧
    ring_buffer_foreach 3 two_node_buffer (log_cb (λ _ st n, (n + 1, st - 1))) (0, [])
      = Some (c, (arg', log)) ∧
    log.*1 `prefix_of` (token_of <$> [4144; 4200]) ∧
    (∀ i e, log !! i = Some e → (S i < length log)%nat → 0 ≤ e.2) ∧
    ((length log < length [4144; 4200])%nat → ∃ e, last log = Some e ∧ e.2 < 0) ∧
    c = Z.of_nat (length (filter nonneg_result log)).
Proof.
  apply (foreach_counts_nonnegative_visits two_node_buffer
           (λ _ st n, (n + 1, st - 1)) 0 [4144; 4200] 3).
  - exact two_node_buffer_time_list.
  - simpl. lia.
  - vm_compute. discriminate.
Defined.

(** C9, as stated, fails: a visitor that returns a negative value on the
    first node has been invoked once, and [ring_buffer_foreach] returns 0. *)
Lemma foreach_count_omits_stopping_node :
  ∃ c log,
    ring_buffer_foreach 3 two_node_buffer (log_cb (λ _ _ (a : unit), (a, -1))) (tt, [])
      = Some (c, (tt, log)) ∧
    length log = 1%nat ∧ c = 0.
Proof. exists 0, [(4184, -1)]. split_and!; reflexivity. Qed.

(** *** Loads and stores *)

Lemma store_inv p f rb rb' :
  store p f rb = Some rb' →
  p ≠ NULL ∧
  rb' = set_nodes (<[p := f (default junk_node (nodes rb !! p))]> (nodes rb)) rb.
Proof. unfold store. case_decide; [done|]. by intros [= <-]. Qed.

Lemma store_nonnull p f rb :
  p ≠ NULL →
  store p f rb
  = Some (set_nodes (<[p := f (default junk_node (nodes rb !! p))]> (nodes rb)) rb).
Proof. intros. unfold store. by rewrite decide_False. Qed.

Lemma node_at_Some rb p n : node_at rb p = Some n → p ≠ NULL ∧ nodes rb !! p = Some n.
Proof. unfold node_at. case_decide; [done|]. done. Qed.

Lemma node_at_lookup rb p : p ≠ NULL → node_at rb p = nodes rb !! p.
Proof. intros. unfold node_at. by rewrite decide_False. Qed.

(** One step of inversion of a sequence of loads and stores that returned. *)
Ltac inv_step H :=
  match type of H with
  | mbind _ ?m = Some _ =>
      let E := fresh "E" in
      destruct m eqn:E; simpl in H; [|discriminate H]
  | (let '(_, _) := ?x in _) = Some _ => destruct x; simpl in H
  | (if ?b then _ else _) = Some _ =>
      let E := fresh "E" in destruct b eqn:E; simpl in H
  | (match ?d with left _ => _ | right _ => _ end) = Some _ =>
      destruct d; simpl in H
  end.

(** The same with a name for the equation that records the case. *)
Ltac inv_step_as H E :=
  match type of H with
  | mbind _ ?m = Some _ =>
      destruct m eqn:E; simpl in H; [|discriminate H]
  | (if ?b then _ else _) = Some _ => destruct b eqn:E; simpl in H
  end.

Ltac inv_stores :=
  repeat match goal with
  | H : store _ _ _ = Some _ |- _ => apply store_inv in H as [? ->]
  end.

Lemma token_of_nonnull p : 0 ≤ p → token_of p ≠ NULL.
Proof. unfold token_of, offsetof_token, NULL. lia. Qed.

Lemma reserve_empty_inv rb data_len node_size rb' t :
  _ring_buffer_reserve_empty rb data_len node_size = Some (rb', t) →
  (capacity rb < node_size ∧ rb' = rb ∧ t = NULL) ∨
  (node_size ≤ capacity rb ∧ t = token_of (cache rb) ∧ lost rb' = lost rb).
Proof.
  unfold _ring_buffer_reserve_empty. intros H.
  destruct (Z.gtb_spec node_size (capacity rb)).
  - left. simplify_eq. split_and!; [lia|done..].
  - right. repeat inv_step H. inv_stores. simplify_eq. simpl. done.
Qed.

Lemma update_time_hdr rb new_node rb' :
  _ring_buffer_update_time_for_new_node rb new_node = Some rb' →
  cache rb' = cache rb ∧ capacity rb' = capacity rb ∧ lost rb' = lost rb ∧
  TAIL rb' = TAIL rb ∧ oldest_reserve rb' = oldest_reserve rb ∧ HEAD rb' = new_node.
Proof.
  unfold _ring_buffer_update_time_for_new_node. intros H.
  repeat inv_step H. inv_stores. simplify_eq. done.
Qed.

Lemma insert_new_node_hdr rb new_node data_len rb' :
  _ring_buffer_insert_new_node rb new_node data_len = Some rb' →
  cache rb' = cache rb ∧ capacity rb' = capacity rb ∧ lost rb' = lost rb ∧
  TAIL rb' = TAIL rb ∧ oldest_reserve rb' = oldest_reserve rb ∧ HEAD rb' = new_node.
Proof.
  unfold _ring_buffer_insert_new_node. intros H.
  repeat inv_step H. apply update_time_hdr in H. inv_stores. simpl in *. done.
Qed.

Lemma reserve_overwrite_fail rb data_len node_size rb' :
  0 ≤ cache rb → 0 ≤ oldest_reserve rb →
  _ring_buffer_reserve_overwrite rb data_len node_size = Some (rb', NULL) → rb' = rb.
Proof.
  intros Hc Ho. unfold _ring_buffer_reserve_overwrite. intros H.
  case_decide; [congruence|].
  inv_step H. inv_step H; [congruence|].
  inv_step H.
  { inv_step H; [|congruence].
    apply reserve_empty_inv in H as [(? & _)|(_ & Ht & _)]; simpl in *.
    - apply Z.geb_le in E2. lia.
    - symmetry in Ht. by apply token_of_nonnull in Ht. }
  inv_step H. destruct p as [[sum_size lost_node] node_end]. simpl in H.
  inv_step H; [congruence|].
  repeat inv_step H. all: simplify_eq.
  all: exfalso; by eapply (token_of_nonnull (oldest_reserve rb)).
Qed.

Lemma reserve_none_empty_fail rb data_len node_size flags rb' :
  0 ≤ cache rb → 0 ≤ HEAD rb → 0 ≤ oldest_reserve rb →
  _ring_buffer_reserve_none_empty rb data_len node_size flags = Some (rb', NULL) →
  rb' = rb.
Proof.
  intros Hc Hh Ho. unfold _ring_buffer_reserve_none_empty. intros H.
  inv_step H.
  pose proof (node_cost_range (len r)) as Hcost.
  repeat inv_step H; simplify_eq;
    try (by eapply reserve_overwrite_fail);
    try (exfalso; eapply token_of_nonnull; [|done]; lia); done.
Qed.

(** C10: a [reserve] or [consume] call that returns [NULL] leaves the whole
    buffer as it was: header fields, counter, and every node header.
    (Addresses are non-negative, so a token is never [NULL].) *)
Theorem failed_reserve_consume_keep_state rb :
  0 ≤ cache rb → 0 ≤ HEAD rb → 0 ≤ oldest_reserve rb →
  (∀ len flags rb', ring_buffer_reserve rb len flags = Some (rb', NULL) → rb' = rb) ∧
  (∀ lost_p rb' out, ring_buffer_consume rb lost_p = Some (rb', NULL, out) → rb' = rb).
Proof.
  intros Hc Hh Ho. split.
  - intros len flags rb'. unfold ring_buffer_reserve. case_decide.
    + intros Hr. apply reserve_empty_inv in Hr as [(_ & ? & _)|(_ & Ht & _)]; [done|].
      symmetry in Ht. by apply token_of_nonnull in Ht.
    + by apply reserve_none_empty_fail.
  - intros lost_p rb' out. unfold ring_buffer_consume. intros Hr.
    case_decide; [congruence|].
    inv_step Hr. inv_step Hr; [congruence|].
    repeat inv_step Hr. simplify_eq.
    exfalso. by eapply (token_of_nonnull (oldest_reserve rb)).
Qed.

Lemma failed_reserve_consume_keep_state_witness :
  (0 ≤ cache two_node_buffer ∧ 0 ≤ HEAD two_node_buffer ∧
   0 ≤ oldest_reserve two_node_buffer) ∧
  (ring_buffer_reserve two_node_buffer 1000 1 = Some (two_node_buffer, NULL) ∧
   ring_buffer_consume two_node_buffer 0 = Some (two_node_buffer, NULL, None)) ∧
  ((∀ len flags rb', ring_buffer_reserve two_node_buffer len flags = Some (rb', NULL) →
      rb' = two_node_buffer) ∧
   (∀ lost_p rb' out, ring_buffer_consume two_node_buffer lost_p = Some (rb', NULL, out) →
      rb' = two_node_buffer)).
Proof.
  split; [simpl; lia|]. split; [split; reflexivity|].
  apply (failed_reserve_consume_keep_state two_node_buffer); simpl; lia.
Defined.

(** *** The source at the inputs where it leaves its own contract *)

(** C1 at a failing input.  One record is reserved, confirmed and consumed,
    so the buffer holds one [reading] node and [oldest_reserve] is [NULL];
    the next [reserve] goes through [_ring_buffer_insert_new_node], which
    does not touch [oldest_reserve]: the new [writing] node at 4200 is in the
    time chain and [oldest_reserve] stays [NULL], and once that record is
    confirmed [consume] still returns [NULL].  Second part: after the
    consume-discard of the middle one of three records, [oldest_reserve] is
    the newest node although the older middle node is [committed]. *)
Theorem insert_leaves_oldest_reserve_absent :
  (∃ rb rb',
     boot 4096 304 [Reserve 8 0; Commit 4184 0; Consume 0; Reserve 8 0]
     = Some (rb, [RToken 4184; RStatus 0; RConsumed 4184 None; RToken 4240]) ∧
     time_chain 3 rb (TAIL rb) = [4144; 4200] ∧
     state_at rb 4144 = Some reading ∧
     state_at rb 4200 = Some writing ∧
     oldest_reserve rb = NULL ∧
     run rb [Commit 4240 0; Consume 0]
     = Some (rb', [RStatus 0; RConsumed NULL None])) ∧
  (∃ rb,
     boot 4096 304 (three_committed ++ [Consume 0; Consume 0; Commit 4240 2])
     = Some (rb, [RToken 4184; RStatus 0; RToken 4240; RStatus 0; RToken 4296;
                  RStatus 0; RConsumed 4184 None; RConsumed 4240 None; RStatus 0]) ∧
     time_chain 4 rb (TAIL rb) = [4144; 4200; 4256] ∧
     oldest_reserve rb = 4256 ∧
     state_at rb 4200 = Some committed).
Proof.
  split.
  - do 2 eexists. split; [vm_compute; reflexivity|].
    split_and!; vm_compute; reflexivity.
  - eexists. split; [vm_compute; reflexivity|].
    split_and!; vm_compute; reflexivity.
Qed.

(** C3 at a failing input.  Of three committed records the first two are
    consumed; the second token is then committed with [DISCARD].  No newer
    node is [reading], and the node is the one just older than
    [oldest_reserve], so the branch of line 380 is taken: the assignment goes
    to [oldeest_reserve], [oldest_reserve] keeps pointing at the third node,
    and the next [consume] yields the third record, not the discarded one. *)
Theorem consume_discard_leaves_oldest_reserve :
  ∃ rb0 rb1 rb2,
    boot 4096 304 (three_committed ++ [Consume 0; Consume 0])
    = Some (rb0, [RToken 4184; RStatus 0; RToken 4240; RStatus 0; RToken 4296;
                  RStatus 0; RConsumed 4184 None; RConsumed 4240 None]) ∧
    time_chain 4 rb0 (TAIL rb0) = [4144; 4200; 4256] ∧
    state_at rb0 4200 = Some reading ∧
    state_at rb0 4256 = Some committed ∧
    oldest_reserve rb0 = 4256 ∧
    ring_buffer_commit rb0 (token_of 4200) ring_buffer_flag_discard = Some (rb1, 0) ∧
    state_at rb1 4200 = Some committed ∧
    oldest_reserve rb1 = 4256 ∧
    oldeest_reserve rb1 = 4200 ∧
    ring_buffer_consume rb1 NULL = Some (rb2, token_of 4256, None).
Proof.
  do 3 eexists. split; [vm_compute; reflexivity|].
  split_and!; vm_compute; reflexivity.
Qed.

(** C4 at a failing input.  After the sequence of C3 and one more [consume]
    the time chain is [reading], [committed], [reading].  Committing the
    oldest token with [DISCARD] and without [CONSUME_ON_ERROR] looks at the
    next newer node only, finds it [committed], and returns 0, although the
    newest node is [reading]. *)
Theorem consume_discard_ignores_later_reader :
  ∃ rb rb',
    boot 4096 304 (three_committed ++ [Consume 0; Consume 0; Commit 4240 2; Consume 0])
    = Some (rb, [RToken 4184; RStatus 0; RToken 4240; RStatus 0; RToken 4296;
                 RStatus 0; RConsumed 4184 None; RConsumed 4240 None; RStatus 0;
                 RConsumed 4296 None]) ∧
    time_chain 4 rb (TAIL rb) = [4144; 4200; 4256] ∧
    state_at rb 4144 = Some reading ∧
    state_at rb 4200 = Some committed ∧
    state_at rb 4256 = Some reading ∧
    has_flag ring_buffer_flag_discard ring_buffer_flag_consume_on_error = false ∧
    ring_buffer_commit rb (token_of 4144) ring_buffer_flag_discard = Some (rb', 0) ∧
    state_at rb' 4144 = Some committed.
Proof.
  do 2 eexists. split; [vm_compute; reflexivity|].
  split_and!; vm_compute; reflexivity.
Qed.

Lemma node_at_default rb p n :
  node_at rb p = Some n → default junk_node (nodes rb !! p) = n.
Proof. intros [_ ->]%node_at_Some. done. Qed.

(** *** Symbolic execution *)

Ltac side := solve [done | lia | congruence].

(** Resolve the address comparisons that the context decides. *)
Ltac decide_addr :=
  repeat match goal with
  | |- context [decide (?a = ?b)] =>
      first [ rewrite (decide_True (P := a = b)) by side
            | rewrite (decide_False (P := a = b)) by side ]
  end.

(** Symbolic execution of straight-line loads and stores in the goal. *)
Ltac heap_simpl :=
  repeat first
    [ rewrite store_nonnull by side
    | progress simpl
    | progress unfold node_at
    | rewrite lookup_insert
    | progress decide_addr ].

Lemma insert_new_node_spec rb new_node data_len h :
  node_at rb (HEAD rb) = Some h →
  new_node ≠ NULL → p_forward h ≠ NULL →
  new_node ≠ HEAD rb → new_node ≠ p_forward h →
  ∃ rb',
    _ring_buffer_insert_new_node rb new_node data_len = Some rb' ∧
    HEAD rb' = new_node ∧ TAIL rb' = TAIL rb ∧
    oldest_reserve rb' = oldest_reserve rb ∧ lost rb' = lost rb ∧
    cache rb' = cache rb ∧ capacity rb' = capacity rb ∧
    ∀ q, node_at rb' q =
      if decide (q = new_node)
      then Some (mk_node (p_forward h) (HEAD rb) NULL (HEAD rb) writing data_len)
      else if decide (q = HEAD rb)
      then Some (set_p_newer new_node (set_p_forward new_node
                   (if decide (p_forward h = HEAD rb) then set_p_backward new_node h else h)))
      else if decide (q = p_forward h)
      then Some (set_p_backward new_node (default junk_node (nodes rb !! p_forward h)))
      else node_at rb q.
Proof.
  intros Hh Hn Hpf Hnh Hnpf.
  destruct (node_at_Some _ _ _ Hh) as [Hhead Hhl].
  unfold _ring_buffer_insert_new_node, _ring_buffer_update_time_for_new_node.
  heap_simpl. rewrite Hhl. heap_simpl.
  eexists. split; [reflexivity|]. simpl. split_and!; try done.
  intros q. heap_simpl.
  destruct (decide (q = NULL)) as [->|Hq]; [by heap_simpl|].
  destruct (decide (q = new_node)) as [->|Hq1]; [by heap_simpl|].
  destruct (decide (q = HEAD rb)) as [->|Hq2].
  { heap_simpl. destruct (decide (p_forward h = HEAD rb)) as [Heq|Hne]; heap_simpl.
    - rewrite Heq, Hhl. done.
    - rewrite Hhl. done. }
  destruct (decide (q = p_forward h)) as [->|Hq3]; by heap_simpl.
Qed.

(** *** Placement of a new node *)

(** C7: with the wrap point between [HEAD] and its position successor,
    [reserve] takes the room after [HEAD] up to the end of the cache if the
    node fits there, else the room from the start of the cache up to the
    successor if it fits there (the new node then starts at [cache]), else
    it runs the overwrite when flagged and returns [NULL] when not. *)
Theorem reserve_wrap_case rb data_len flags h :
  TAIL rb ≠ NULL →
  node_at rb (HEAD rb) = Some h →
  p_forward h < HEAD rb →
  0 < cache rb ≤ p_forward h →
  HEAD rb < HEAD rb + _ring_buffer_node_cost (len h) ≤ cache rb + capacity rb →
  capacity rb < SIZE_MAX1 →
  let node_size := _ring_buffer_node_cost data_len in
  let next := HEAD rb + _ring_buffer_node_cost (len h) in
  let tail_room := cache rb + capacity rb - next in
  let head_room := p_forward h - cache rb in
  (node_size ≤ tail_room →
   ∃ rb', ring_buffer_reserve rb data_len flags = Some (rb', token_of next) ∧
          HEAD rb' = next ∧
          node_at rb' next
          = Some (mk_node (p_forward h) (HEAD rb) NULL (HEAD rb) writing data_len)) ∧
  (tail_room < node_size → node_size ≤ head_room →
   ∃ rb', ring_buffer_reserve rb data_len flags = Some (rb', token_of (cache rb)) ∧
          HEAD rb' = cache rb ∧
          node_at rb' (cache rb)
          = Some (mk_node (p_forward h) (HEAD rb) NULL (HEAD rb) writing data_len)) ∧
  (tail_room < node_size → head_room < node_size →
   ring_buffer_reserve rb data_len flags
   = if has_flag flags ring_buffer_flag_overwrite
     then _ring_buffer_reserve_overwrite rb data_len node_size
     else Some (rb, NULL)).
Proof.
  intros Ht Hh Hwrap Hc Hnext Hcap node_size next tail_room head_room.
  pose proof (node_cost_range data_len) as Hns. fold node_size in Hns.
  destruct (node_at_Some _ _ _ Hh) as [Hhead _].
  unfold ring_buffer_reserve. rewrite decide_False by done.
  unfold _ring_buffer_reserve_none_empty. rewrite Hh. simpl.
  fold node_size next.
  destruct (Z.gtb_spec (p_forward h) (HEAD rb)) as [?|_]; [lia|].
  replace (capacity rb - (next - cache rb)) with tail_room by (unfold tail_room; lia).
  rewrite (wrap_small tail_room) by (unfold tail_room, next in *; lia).
  fold head_room.
  rewrite (wrap_small head_room) by (unfold head_room, next in *; lia).
  unfold NULL in *.
  split_and!.
  - intros Hfit. destruct (Z.geb_spec tail_room node_size) as [_|?]; [|lia].
    destruct (insert_new_node_spec rb next data_len h Hh)
      as (rb' & -> & Hhd & _ & _ & _ & _ & _ & Hq); unfold NULL; try lia.
    exists rb'. simpl. split_and!; [done..|].
    rewrite Hq. by rewrite decide_True.
  - intros Hno Hfit. destruct (Z.geb_spec tail_room node_size) as [?|_]; [lia|].
    destruct (Z.geb_spec head_room node_size) as [_|?]; [|lia].
    destruct (insert_new_node_spec rb (cache rb) data_len h Hh)
      as (rb' & -> & Hhd & _ & _ & _ & _ & _ & Hq); unfold NULL, head_room in *; try lia.
    exists rb'. simpl. split_and!; [done..|].
    rewrite Hq. by rewrite decide_True.
  - intros Hno1 Hno2. destruct (Z.geb_spec tail_room node_size) as [?|_]; [lia|].
    destruct (Z.geb_spec head_room node_size) as [?|_]; [lia|]. done.
Qed.

Lemma wrapped_buffer_reachable :
  boot 4096 304 [Reserve 8 0; Reserve 8 0; Reserve 96 0; Commit 4184 0; Consume 0;
                 Commit 4184 0]
  = Some (wrapped_buffer,
          [RToken 4184; RToken 4240; RToken 4296; RStatus 0; RConsumed 4184 None;
           RStatus 0]).
Proof. vm_compute. reflexivity. Qed.

Lemma reserve_wrap_case_witness :
  let h := mk_node 4200 4200 0 4200 writing 96 in
  (TAIL wrapped_buffer ≠ NULL ∧
   node_at wrapped_buffer (HEAD wrapped_buffer) = Some h ∧
   p_forward h < HEAD wrapped_buffer ∧
   0 < cache wrapped_buffer ≤ p_forward h ∧
   HEAD wrapped_buffer < HEAD wrapped_buffer + _ring_buffer_node_cost (len h)
     ≤ cache wrapped_buffer + capacity wrapped_buffer ∧
   capacity wrapped_buffer < SIZE_MAX1) ∧
  ∃ rb', ring_buffer_reserve wrapped_buffer 8 0 = Some (rb', token_of (cache wrapped_buffer)) ∧
         HEAD rb' = cache wrapped_buffer ∧
         node_at rb' (cache wrapped_buffer)
         = Some (mk_node (p_forward h) (HEAD wrapped_buffer) NULL (HEAD wrapped_buffer)
                         writing 8).
Proof.
  intros h.
  assert (TAIL wrapped_buffer ≠ NULL) as H1 by (vm_compute; discriminate).
  assert (node_at wrapped_buffer (HEAD wrapped_buffer) = Some h) as H2 by reflexivity.
  assert (p_forward h < HEAD wrapped_buffer) as H3 by (vm_compute; reflexivity).
  assert (0 < cache wrapped_buffer ≤ p_forward h) as H4
    by (split; vm_compute; [reflexivity|discriminate]).
  assert (HEAD wrapped_buffer < HEAD wrapped_buffer + _ring_buffer_node_cost (len h)
          ≤ cache wrapped_buffer + capacity wrapped_buffer) as H5
    by (split; vm_compute; [reflexivity|discriminate]).
  assert (capacity wrapped_buffer < SIZE_MAX1) as H6 by (vm_compute; reflexivity).
  split; [done|].
  destruct (reserve_wrap_case wrapped_buffer 8 0 h H1 H2 H3 H4 H5 H6) as (_ & Hhead & _).
  apply Hhead; vm_compute; [reflexivity|discriminate].
Defined.

(** *** The overwrite walk *)

Lemma wrap_wrap_add a b : wrap (wrap a + b) = wrap (a + b).
Proof. unfold wrap. apply Zplus_mod_idemp_l. Qed.

Lemma stops_or_absorbs_excl rb ns sum cur nxt :
  stops_at rb ns sum cur → absorbable rb ns sum cur nxt → False.
Proof.
  intros (e & He & Hstop) (e' & f & He' & Hf & -> & H1 & H2 & H3 & H4).
  simplify_eq. destruct Hstop as [?|(f' & Hf' & Hc)]; [lia|].
  simplify_eq. destruct Hc as [?|[?|?]]; [done|done|lia].
Qed.

(** The walk is deterministic. *)
Lemma walk_run_functional rb ns acc cur l sum :
  walk_run rb ns acc cur l sum →
  ∀ l' sum', walk_run rb ns acc cur l' sum' → l' = l ∧ sum' = sum.
Proof.
  induction 1 as [acc cur e He Hstop|acc cur e l sum He Habs Hrun IH];
    intros l' sum' Hrun'; inversion Hrun'; simplify_eq.
  - done.
  - exfalso. eauto using stops_or_absorbs_excl.
  - exfalso. eauto using stops_or_absorbs_excl.
  - destruct (IH _ _ H1) as [-> ->]. done.
Qed.

Lemma walk_run_head rb ns acc cur l sum :
  walk_run rb ns acc cur l sum → ∃ l', l = cur :: l'.
Proof. destruct 1; eauto. Qed.

(** The nodes of a run are headers at strictly increasing addresses. *)
Lemma walk_run_increasing rb ns acc cur l sum :
  walk_run rb ns acc cur l sum →
  Forall (λ x, cur ≤ x ∧ is_Some (nodes rb !! x)) l ∧ NoDup l.
Proof.
  induction 1 as [acc cur e He Hstop|acc cur e l sum He Habs Hrun [IH1 IH2]].
  - apply node_at_Some in He as [_ He]. split.
    + repeat constructor; [lia|eauto].
    + apply NoDup_singleton.
  - destruct Habs as (e' & f & He' & Hf & _ & _ & _ & _ & Hlt). simplify_eq.
    apply node_at_Some in He as [_ He]. split.
    + constructor; [split; [lia|eauto]|].
      eapply Forall_impl; [exact IH1|]. simpl. intros x [? ?]. split; [lia|done].
    + constructor; [|done]. intros Hin.
      rewrite Forall_forall in IH1. apply IH1 in Hin as [? _]. lia.
Qed.

Lemma walk_run_length rb ns acc cur l sum :
  walk_run rb ns acc cur l sum → (length l ≤ size (nodes rb))%nat.
Proof.
  intros [Hall Hnd]%walk_run_increasing.
  rewrite <- (size_dom (D := gset Z)).
  change (size (dom (nodes rb))) with (length (elements (dom (nodes rb)))).
  apply submseteq_length, NoDup_submseteq; [done|].
  intros x Hx. rewrite Forall_forall in Hall. apply Hall in Hx as [_ Hx].
  by apply elem_of_elements, elem_of_dom.
Qed.

Lemma bump_S n c : bump (S n) c = bump n (wrap (c + 1)).
Proof. unfold bump. by rewrite Nat.iter_succ_r. Qed.

Lemma bump_wrap n c : 0 ≤ c < SIZE_MAX1 → bump n c = wrap (c + Z.of_nat n).
Proof.
  revert c. induction n as [|n IH]; intros c Hc.
  - simpl. rewrite Z.add_0_r. by rewrite wrap_small.
  - rewrite bump_S, IH by apply wrap_range.
    rewrite wrap_wrap_add. f_equal. lia.
Qed.

(** The loop computes the run: with enough fuel it returns the end of the
    run, the bytes accumulated and the number of nodes. *)
Lemma overwrite_walk_complete rb ns acc cur l sum :
  walk_run rb ns acc cur l sum →
  ∀ fuel cnt, (length l ≤ fuel)%nat →
    overwrite_walk fuel rb ns acc cnt cur
    = Some (sum, bump (length l - 1) cnt, default cur (last l)).
Proof.
  induction 1 as [acc cur e He Hstop|acc cur e l sum He Habs Hrun IH];
    intros fuel cnt Hfuel.
  - destruct fuel as [|fuel]; [simpl in Hfuel; lia|]. simpl. rewrite He. simpl.
    destruct Hstop as (e' & He' & Hstop). simplify_eq.
    destruct Hstop as [Hge|(f & Hf & Hc)].
    + destruct (Z.ltb_spec (wrap (acc + _ring_buffer_node_cost (len e))) ns); [lia|done].
    + destruct (Z.ltb_spec (wrap (acc + _ring_buffer_node_cost (len e))) ns); [|done].
      simpl. rewrite Hf. simpl.
      destruct Hc as [Hc|[Hc|Hc]].
      * by rewrite bool_decide_eq_false_2.
      * destruct (bool_decide _); [|done]. simpl.
        destruct (Z.eqb_spec (p_forward e) (p_newer e)); [done|done].
      * destruct (bool_decide _); [|done]. simpl.
        destruct (Z.eqb_spec (p_forward e) (p_newer e)); [|done]. simpl.
        destruct (Z.gtb_spec (p_forward e) cur); [lia|done].
  - destruct fuel as [|fuel]; [simpl in Hfuel; lia|]. simpl. rewrite He. simpl.
    destruct Habs as (e' & f & He' & Hf & _ & H1 & H2 & H3 & H4). simplify_eq.
    destruct (Z.ltb_spec (wrap (acc + _ring_buffer_node_cost (len e))) ns); [|lia].
    simpl. rewrite Hf. simpl. rewrite bool_decide_eq_true_2 by done. simpl.
    destruct (Z.eqb_spec (p_forward e) (p_newer e)); [|done]. simpl.
    destruct (Z.gtb_spec (p_forward e) cur); [|lia]. simpl.
    rewrite IH by (simpl in Hfuel; lia).
    destruct (walk_run_head _ _ _ _ _ _ Hrun) as [l' ->].
    cbn [length]. rewrite !Nat.sub_succ, !Nat.sub_0_r, bump_S.
    by rewrite last_cons_cons, !last_cons; destruct (last l').
Qed.

(** Whatever the loop returns is a run. *)
Lemma overwrite_walk_sound rb ns fuel :
  ∀ acc cnt cur sum c e,
    overwrite_walk fuel rb ns acc cnt cur = Some (sum, c, e) →
    ∃ l, walk_run rb ns acc cur l sum ∧ last l = Some e ∧
         c = bump (length l - 1) cnt.
Proof.
  induction fuel as [|fuel IH]; intros acc cnt cur sum c e H; [done|].
  simpl in H. destruct (node_at rb cur) as [n|] eqn:Hn; [|done]. simpl in H.
  set (sum1 := wrap (acc + _ring_buffer_node_cost (len n))) in *.
  destruct (Z.ltb_spec sum1 ns) as [Hlt|Hge]; simpl in H.
  2:{ injection H as ? ? ?; subst sum c e. exists [cur]. split_and!; [|done..].
      apply walk_run_stop; [done|]. exists n. split; [done|]. left. done. }
  destruct (node_at rb (p_forward n)) as [f|] eqn:Hf; [|done]. simpl in H.
  destruct (decide (state f = committed)) as [Hst|Hst].
  2:{ rewrite bool_decide_eq_false_2 in H by done. simpl in H. injection H as ? ? ?; subst sum c e. exists [cur]. split_and!; [|done..].
      apply walk_run_stop; [done|]. exists n. split; [done|]. right. eauto. }
  rewrite bool_decide_eq_true_2 in H by done. simpl in H.
  destruct (Z.eqb_spec (p_forward n) (p_newer n)) as [Heq|Hne]; simpl in H.
  2:{ injection H as ? ? ?; subst sum c e. exists [cur]. split_and!; [|done..].
      apply walk_run_stop; [done|]. exists n. split; [done|]. right. eauto. }
  destruct (Z.gtb_spec (p_forward n) cur) as [Hgt|Hle]; simpl in H.
  2:{ injection H as ? ? ?; subst sum c e. exists [cur]. split_and!; [|done..].
      apply walk_run_stop; [done|]. exists n. split; [done|]. right. eauto. }
  apply IH in H as (l & Hrun & Hlast & ->).
  exists (cur :: l). destruct (walk_run_head _ _ _ _ _ _ Hrun) as [l' ->].
  split_and!.
  - eapply walk_run_step; [done| |done].
    exists n, f. split_and!; try done; lia.
  - by rewrite last_cons_cons.
  - cbn [length]. by rewrite !Nat.sub_succ, !Nat.sub_0_r, bump_S.
Qed.

(** With the fuel the source function is given, the loop returns exactly the
    run from [cur]. *)
Lemma overwrite_walk_run rb ns cur sum c e :
  overwrite_walk (walk_fuel rb) rb ns 0 1 cur = Some (sum, c, e) ↔
  ∃ l, walk_run rb ns 0 cur l sum ∧ last l = Some e ∧
       c = wrap (Z.of_nat (length l)).
Proof.
  split.
  - intros (l & Hrun & Hlast & ->)%overwrite_walk_sound.
    exists l. split_and!; [done..|].
    destruct (walk_run_head _ _ _ _ _ _ Hrun) as [l' ->].
    rewrite bump_wrap by (split; [lia|reflexivity]). f_equal.
    cbn [length]. rewrite Nat.sub_succ, Nat.sub_0_r. lia.
  - intros (l & Hrun & Hlast & ->).
    rewrite (overwrite_walk_complete _ _ _ _ _ _ Hrun).
    2:{ unfold walk_fuel. pose proof (walk_run_length _ _ _ _ _ _ Hrun). lia. }
    rewrite Hlast. simpl.
    destruct (walk_run_head _ _ _ _ _ _ Hrun) as [l' ->].
    rewrite bump_wrap by (split; [lia|reflexivity]).
    cbn [length]. rewrite Nat.sub_succ, Nat.sub_0_r.
    replace (1 + Z.of_nat (length l')) with (Z.of_nat (S (length l'))) by lia. done.
Qed.

(** *** Overwrite *)

Global Arguments overwrite_walk : simpl never.

Ltac inv_all :=
  repeat match goal with
  | H : mbind _ _ = Some _ |- _ => inv_step H
  | H : (match _ with left _ => _ | right _ => _ end) = Some _ |- _ => inv_step H
  end.




Global Arguments overwrite_walk : simpl never.

Lemma store_hdr p f rb rb' :
  store p f rb = Some rb' →
  cache rb' = cache rb ∧ capacity rb' = capacity rb ∧ lost rb' = lost rb ∧
  HEAD rb' = HEAD rb ∧ TAIL rb' = TAIL rb ∧ oldest_reserve rb' = oldest_reserve rb.
Proof. intros [_ ->]%store_inv. done. Qed.

Lemma reserve_overwrite_inv rb data_len node_size rb' t :
  _ring_buffer_reserve_overwrite rb data_len node_size = Some (rb', t) →
  (rb' = rb ∧ t = NULL) ∨
  (∃ o, node_at rb (oldest_reserve rb) = Some o ∧ state o = committed ∧
        sole_node rb o ∧ node_size ≤ capacity rb ∧
        t = token_of (cache rb) ∧ lost rb' = wrap (lost rb + 1)) ∨
  (∃ o l sum, node_at rb (oldest_reserve rb) = Some o ∧ state o = committed ∧
        ¬ sole_node rb o ∧
        walk_run rb node_size 0 (oldest_reserve rb) l sum ∧ node_size ≤ sum ∧
        t = token_of (oldest_reserve rb) ∧
        lost rb' = wrap (lost rb + wrap (Z.of_nat (length l)))).
Proof.
  unfold _ring_buffer_reserve_overwrite. intros H.
  case_decide; [left; by simplify_eq|].
  inv_step_as H Ho. rename r into o.
  inv_step_as H Hst; [left; by simplify_eq|].
  apply negb_false_iff, bool_decide_eq_true in Hst.
  inv_step_as H Hsole.
  { apply andb_true_iff in Hsole as [?%Z.eqb_eq ?%Z.eqb_eq].
    inv_step_as H Hcap; [|left; by simplify_eq].
    apply Z.geb_le in Hcap.
    apply reserve_empty_inv in H as [(? & _)|(_ & Ht & Hl)]; simpl in *; [lia|].
    right. left. exists o. split_and!; try done. }
  apply andb_false_iff in Hsole.
  inv_step_as H Hwalk. destruct p as [[sum_size lost_node] node_end]. simpl in H.
  inv_step_as H Hsum; [left; by simplify_eq|].
  apply Z.ltb_ge in Hsum.
  apply overwrite_walk_run in Hwalk as (l & Hrun & Hlast & ->).
  right. right. exists o, l, sum_size. split_and!; try done.
  - unfold sole_node. intros [? ?]. destruct Hsole as [?%Z.eqb_neq|?%Z.eqb_neq]; done.
  - repeat inv_step H; by simplify_eq.
  - repeat inv_step H. all: inv_all.
    all: repeat match goal with
         | H : _ring_buffer_update_time_for_new_node _ _ = Some _ |- _ =>
             apply update_time_hdr in H as (_ & _ & ? & _)
         | H : store _ _ _ = Some _ |- _ => apply store_hdr in H as (_ & _ & ? & _)
         end.
    all: simplify_eq; simpl in *; congruence.
Qed.

Lemma reserve_none_empty_lost rb data_len node_size flags rb' t :
  _ring_buffer_reserve_none_empty rb data_len node_size flags = Some (rb', t) →
  lost rb' = lost rb ∨
  (has_flag flags ring_buffer_flag_overwrite = true ∧
   _ring_buffer_reserve_overwrite rb data_len node_size = Some (rb', t)).
Proof.
  unfold _ring_buffer_reserve_none_empty. intros H.
  inv_step H. repeat inv_step H; simplify_eq; eauto.
  all: left;
    match goal with
    | H : _ring_buffer_insert_new_node _ _ _ = Some _ |- _ =>
        by apply insert_new_node_hdr in H as (_ & _ & ? & _)
    end.
Qed.

Lemma delete_node_lost rb node rb' :
  _ring_buffer_delete_node rb node = Some rb' → lost rb' = lost rb.
Proof.
  unfold _ring_buffer_delete_node, _ring_buffer_remove_tail, _ring_buffer_remove_head,
    _ring_buffer_remove_node_chain_pos.
  intros H. repeat inv_step H; inv_all; inv_stores; simplify_eq; simpl; try done.
  all: repeat case_decide; done.
Qed.

Lemma commit_lost rb token flags rb' r :
  ring_buffer_commit rb token flags = Some (rb', r) → lost rb' = lost rb.
Proof.
  unfold ring_buffer_commit, _ring_buffer_commit_for_write,
    _ring_buffer_commit_for_consume, _ring_buffer_commit_for_write_discard,
    _ring_buffer_commit_for_write_confirm, _ring_buffer_commit_for_consume_discard,
    _ring_buffer_commit_for_consume_confirm.
  intros H. repeat inv_step H.
  all: repeat match goal with
       | H : _ring_buffer_delete_node _ _ = Some _ |- _ => apply delete_node_lost in H
       | H : store _ _ _ = Some _ |- _ => apply store_hdr in H as (_ & _ & ? & _)
       end.
  all: simplify_eq; simpl in *; congruence.
Qed.



Lemma node_at_store p f rb rb' q :
  store p f rb = Some rb' →
  node_at rb' q
  = if decide (q = p) then Some (f (default junk_node (nodes rb !! p))) else node_at rb q.
Proof.
  intros [Hp ->]%store_inv. unfold node_at. simpl.
  destruct (decide (q = p)) as [->|Hne].
  - rewrite decide_False by done. apply lookup_insert_eq.
  - case_decide; [done|]. by rewrite lookup_insert_ne.
Qed.



Lemma store_exists p f rb :
  p ≠ NULL → ∃ rb', store p f rb = Some rb' ∧
    cache rb' = cache rb ∧ capacity rb' = capacity rb ∧ lost rb' = lost rb ∧
    HEAD rb' = HEAD rb ∧ TAIL rb' = TAIL rb ∧ oldest_reserve rb' = oldest_reserve rb.
Proof. intros Hp. rewrite store_nonnull by done. eexists. split; [done|]. done. Qed.




Lemma wrap_add_wrap a b : wrap (a + wrap b) = wrap (a + b).
Proof. unfold wrap. apply Zplus_mod_idemp_r. Qed.

Lemma reserve_empty_spec rb data_len node_size :
  node_size ≤ capacity rb → cache rb ≠ NULL →
  ∃ rb',
    _ring_buffer_reserve_empty rb data_len node_size = Some (rb', token_of (cache rb)) ∧
    lost rb' = lost rb ∧ cache rb' = cache rb ∧ capacity rb' = capacity rb ∧
    HEAD rb' = cache rb ∧ TAIL rb' = cache rb ∧ oldest_reserve rb' = cache rb ∧
    node_at rb' (cache rb)
    = Some (mk_node (cache rb) (cache rb) NULL NULL writing data_len).
Proof.
  intros Hfit Hc. unfold _ring_buffer_reserve_empty.
  destruct (Z.gtb_spec node_size (capacity rb)); [lia|].
  heap_simpl. eexists. split; [reflexivity|]. simpl. split_and!; try done.
  by heap_simpl.
Qed.






Lemma one_committed_buffer_reachable :
  boot 4096 304 [Reserve 8 0; Commit 4184 0]
  = Some (one_committed_buffer, [RToken 4184; RStatus 0]).
Proof. vm_compute. reflexivity. Qed.

Lemma two_committed_buffer_reachable :
  boot 4096 304 [Reserve 60 0; Commit 4184 0; Reserve 60 0; Commit 4296 0]
  = Some (two_committed_buffer, [RToken 4184; RStatus 0; RToken 4296; RStatus 0]).
Proof. vm_compute. reflexivity. Qed.




(** C8: an overwrite that evicts adds to [lost] the number of nodes it
    evicts, 1 for the only node and the length of the run otherwise;
    [reserve] changes [lost] in no other way; a [consume] that returns a
    token stores the current [lost] through the out-pointer, when there is
    one, and sets [lost] to 0; a [consume] that returns [NULL] and every
    [commit] leave [lost] alone.  The counter is a [size_t]. *)
Theorem lost_counts_evicted_nodes rb :
  (∀ data_len node_size rb' t,
     _ring_buffer_reserve_overwrite rb data_len node_size = Some (rb', t) →
     (rb' = rb ∧ t = NULL) ∨
     (∃ o, node_at rb (oldest_reserve rb) = Some o ∧ state o = committed ∧
           sole_node rb o ∧ node_size ≤ capacity rb ∧
           t = token_of (cache rb) ∧ lost rb' = wrap (lost rb + 1)) ∨
     (∃ o l sum, node_at rb (oldest_reserve rb) = Some o ∧ state o = committed ∧
           ¬ sole_node rb o ∧
           walk_run rb node_size 0 (oldest_reserve rb) l sum ∧ node_size ≤ sum ∧
           t = token_of (oldest_reserve rb) ∧
           lost rb' = wrap (lost rb + Z.of_nat (length l)))) ∧
  (∀ data_len flags rb' t,
     ring_buffer_reserve rb data_len flags = Some (rb', t) →
     lost rb' = lost rb ∨
     (has_flag flags ring_buffer_flag_overwrite = true ∧
      _ring_buffer_reserve_overwrite rb data_len (_ring_buffer_node_cost data_len)
      = Some (rb', t))) ∧
  (∀ lost_p rb' t out,
     ring_buffer_consume rb lost_p = Some (rb', t, out) →
     (rb' = rb ∧ t = NULL ∧ out = None) ∨
     (t = token_of (oldest_reserve rb) ∧ lost rb' = 0 ∧
      out = if decide (lost_p = NULL) then None else Some (lost rb))) ∧
  (∀ token flags rb' r,
     ring_buffer_commit rb token flags = Some (rb', r) → lost rb' = lost rb).
Proof.
  split_and!.
  - intros data_len node_size rb' t H.
    apply reserve_overwrite_inv in H as [?|[?|(o & l & sum & H)]]; [by left|by right; left|].
    right. right. exists o, l, sum. rewrite wrap_add_wrap in H. done.
  - intros data_len flags rb' t. unfold ring_buffer_reserve. case_decide.
    + intros Hr. left.
      apply reserve_empty_inv in Hr as [(_ & -> & _)|(_ & _ & ?)]; done.
    + apply reserve_none_empty_lost.
  - intros lost_p rb' t out. unfold ring_buffer_consume. intros Hr.
    case_decide; [left; by simplify_eq|].
    inv_step Hr. inv_step Hr; [left; by simplify_eq|].
    repeat inv_step Hr. inv_stores. simplify_eq. right. done.
  - intros token flags rb' r. apply commit_lost.
Qed.

Lemma lost_counts_evicted_nodes_witness :
  ∃ rb1 t1 rb2 t2 out,
    (_ring_buffer_reserve_overwrite two_committed_buffer 60 (_ring_buffer_node_cost 60)
     = Some (rb1, t1) ∧
     ring_buffer_consume rb1 4000 = Some (rb2, t2, out)) ∧
    ((rb2 = rb1 ∧ t2 = NULL ∧ out = None) ∨
     (t2 = token_of (oldest_reserve rb1) ∧ lost rb2 = 0 ∧
      out = if decide (4000 = NULL) then None else Some (lost rb1))) ∧
    ((rb1 = two_committed_buffer ∧ t1 = NULL) ∨
     (∃ o, node_at two_committed_buffer (oldest_reserve two_committed_buffer) = Some o ∧
           state o = committed ∧ sole_node two_committed_buffer o ∧
           _ring_buffer_node_cost 60 ≤ capacity two_committed_buffer ∧
           t1 = token_of (cache two_committed_buffer) ∧
           lost rb1 = wrap (lost two_committed_buffer + 1)) ∨
     (∃ o l sum,
        node_at two_committed_buffer (oldest_reserve two_committed_buffer) = Some o ∧
        state o = committed ∧ ¬ sole_node two_committed_buffer o ∧
        walk_run two_committed_buffer (_ring_buffer_node_cost 60) 0
          (oldest_reserve two_committed_buffer) l sum ∧
        _ring_buffer_node_cost 60 ≤ sum ∧
        t1 = token_of (oldest_reserve two_committed_buffer) ∧
        lost rb1 = wrap (lost two_committed_buffer + Z.of_nat (length l)))).
Proof.
  do 5 eexists. split; [split; vm_compute; reflexivity|]. split.
  - eapply (proj1 (proj2 (proj2 (lost_counts_evicted_nodes _)))). vm_compute. reflexivity.
  - apply (proj1 (lost_counts_evicted_nodes two_committed_buffer) 60). vm_compute. reflexivity.
Defined.

(** *** Neighbours *)

Lemma lnext_notin l a : a ∉ l → lnext l a = None.
Proof.
  induction l as [|x t IH]; [done|]. intros Hn. simpl.
  apply not_elem_of_cons in Hn as [? ?]. rewrite decide_False by done. auto.
Qed.

Lemma lnext_at l1 l2 a : a ∉ l1 → lnext (l1 ++ a :: l2) a = head l2.
Proof.
  induction l1 as [|x t IH]; intros Hn; simpl.
  - by rewrite decide_True.
  - apply not_elem_of_cons in Hn as [? ?]. rewrite decide_False by done. auto.
Qed.

Lemma lnext_elem l a b : lnext l a = Some b → a ∈ l ∧ b ∈ l.
Proof.
  induction l as [|x t IH]; [done|]. simpl. case_decide as Hx.
  - subst. intros Hh. split; [left|]. right. destruct t; simplify_eq/=. left.
  - intros [? ?]%IH. split; by right.
Qed.

Lemma tnext_at l1 l2 a :
  NoDup (l1 ++ a :: l2) → tnext (l1 ++ a :: l2) a = default NULL (head l2).
Proof.
  intros Hnd. unfold tnext. rewrite lnext_at; [done|].
  apply NoDup_app in Hnd as (_ & Hd & _). intros Hin. apply (Hd _ Hin). left.
Qed.

Lemma tprev_at l1 l2 a :
  NoDup (l1 ++ a :: l2) → tprev (l1 ++ a :: l2) a = default NULL (last l1).
Proof.
  intros Hnd. unfold tprev. rewrite reverse_app, reverse_cons, <- app_assoc. simpl.
  rewrite lnext_at.
  - by rewrite head_reverse.
  - rewrite elem_of_reverse. apply NoDup_app in Hnd as (_ & _ & Hd).
    by apply NoDup_cons in Hd as [? _].
Qed.

Lemma cnext_at l1 l2 a :
  NoDup (l1 ++ a :: l2) → cnext (l1 ++ a :: l2) a = default a (head (l2 ++ l1)).
Proof.
  intros Hnd. unfold cnext. rewrite <- app_assoc. simpl.
  rewrite lnext_at.
  2:{ apply NoDup_app in Hnd as (_ & Hd & _). intros Hin. apply (Hd _ Hin). left. }
  destruct l2 as [|b l2]; simpl; [|done].
  destruct l1 as [|c l1]; simpl; done.
Qed.

Lemma cprev_at l1 l2 a :
  NoDup (l1 ++ a :: l2) → cprev (l1 ++ a :: l2) a = default a (last (l2 ++ l1)).
Proof.
  intros Hnd. unfold cprev. rewrite reverse_app, reverse_cons, <- app_assoc. simpl.
  rewrite cnext_at.
  2:{ assert (reverse l2 ++ a :: reverse l1 ≡ₚ l1 ++ a :: l2) as ->; [|done].
      rewrite !reverse_Permutation, Permutation_app_comm. simpl.
      apply Permutation_middle. }
  by rewrite <- reverse_app, head_reverse.
Qed.

Lemma cnext_head r a : NoDup (a :: r) → cnext (a :: r) a = default a (head r).
Proof. intros Hnd. pose proof (cnext_at [] r a Hnd) as H. by rewrite app_nil_r in H. Qed.

Lemma cprev_head r a : NoDup (a :: r) → cprev (a :: r) a = default a (last r).
Proof. intros Hnd. pose proof (cprev_at [] r a Hnd) as H. by rewrite app_nil_r in H. Qed.

Lemma cnext_notin ps a : a ∉ ps → cnext ps a = NULL.
Proof.
  intros Hn. unfold cnext. rewrite lnext_notin; [done|].
  intros [?|Hin]%elem_of_app; [done|]. apply Hn.
  destruct ps; simpl in Hin; [done|]. apply list_elem_of_singleton in Hin as ->. left.
Qed.


Lemma rot_sym l l' : rot l l' → rot l' l.
Proof. intros (l1 & l2 & -> & ->). by exists l2, l1. Qed.

Lemma rot_refl l : rot l l.
Proof. exists [], l. by rewrite app_nil_r. Qed.

Lemma rot_perm l l' : rot l l' → l ≡ₚ l'.
Proof. intros (l1 & l2 & -> & ->). apply Permutation_app_comm. Qed.

Lemma rot_reverse l l' : rot l l' → rot (reverse l) (reverse l').
Proof.
  intros (l1 & l2 & -> & ->). exists (reverse l2), (reverse l1).
  by rewrite !reverse_app.
Qed.

(** The ring neighbours do not depend on where the list starts. *)
Lemma cnext_rot l l' a : NoDup l → rot l l' → cnext l a = cnext l' a.
Proof.
  intros Hnd (l1 & l2 & -> & ->).
  destruct (decide (a ∈ l1 ++ l2)) as [Hin|Hn].
  2:{ rewrite !cnext_notin; [done| |done]. by rewrite (Permutation_app_comm l2 l1). }
  assert (NoDup (l2 ++ l1)) as Hnd' by (by rewrite (Permutation_app_comm l2 l1)).
  apply elem_of_app in Hin as [Hin|Hin].
  - apply list_elem_of_split in Hin as (m1 & m2 & ->).
    rewrite <- app_assoc in Hnd. simpl in Hnd. rewrite <- app_assoc. simpl.
    rewrite cnext_at by done.
    rewrite app_assoc in Hnd'. rewrite (app_assoc l2 m1).
    rewrite cnext_at by done. by rewrite !app_assoc.
  - apply list_elem_of_split in Hin as (m1 & m2 & ->).
    rewrite app_assoc in Hnd. rewrite (app_assoc l1 m1).
    rewrite cnext_at by done.
    rewrite <- app_assoc in Hnd'. simpl in Hnd'. rewrite <- app_assoc. simpl.
    rewrite cnext_at by done. by rewrite !app_assoc.
Qed.

Lemma cprev_rot l l' a : NoDup l → rot l l' → cprev l a = cprev l' a.
Proof.
  intros Hnd Hrot. unfold cprev. apply cnext_rot.
  - by rewrite reverse_Permutation.
  - by apply rot_reverse.
Qed.

Lemma cnext_elem ps a : a ∈ ps → NoDup ps → cnext ps a ∈ ps.
Proof.
  intros (l1 & l2 & ->)%list_elem_of_split Hnd. rewrite cnext_at by done.
  destruct (l2 ++ l1) as [|b r] eqn:E; simpl.
  - apply elem_of_app. right. left.
  - assert (b ∈ l2 ++ l1) as Hb by (rewrite E; left).
    apply elem_of_app in Hb as [?|?]; apply elem_of_app; [right; by right|by left].
Qed.

Lemma cprev_elem ps a : a ∈ ps → NoDup ps → cprev ps a ∈ ps.
Proof.
  intros Hin Hnd. unfold cprev. rewrite <- elem_of_reverse. apply cnext_elem.
  - by rewrite elem_of_reverse.
  - by rewrite reverse_Permutation.
Qed.

(** In a ring of one node the node is its own neighbour; in a larger ring
    no node is. *)
Lemma cnext_self ps a : a ∈ ps → NoDup ps → cnext ps a = a ↔ ps = [a].
Proof.
  intros (l1 & l2 & ->)%list_elem_of_split Hnd. rewrite cnext_at by done.
  split.
  - destruct l2 as [|b l2]; simpl.
    + destruct l1 as [|c l1]; simpl; [done|]. intros ->.
      apply NoDup_cons in Hnd as [Hn _]. exfalso. apply Hn. set_solver.
    + intros ->. apply NoDup_app in Hnd as (_ & _ & Hd).
      apply NoDup_cons in Hd as [Hn _]. exfalso. apply Hn. left.
  - destruct l1 as [|c l1]; [|intros [=]; by destruct l1].
    simpl. intros [= ->]. done.
Qed.

Lemma cprev_self ps a : a ∈ ps → NoDup ps → cprev ps a = a ↔ ps = [a].
Proof.
  intros Hin Hnd. unfold cprev. rewrite cnext_self.
  - split; [|by intros ->]. intros H. rewrite <- (reverse_involutive ps), H. done.
  - by rewrite elem_of_reverse.
  - by rewrite reverse_Permutation.
Qed.







(** The ring after [a] is taken out. *)
Lemma ring_remove_cnext ps ps' a rest q :
  rot ps (a :: rest) → rot ps' rest → NoDup ps → q ≠ a →
  cnext ps' q = if decide (q = cprev ps a) then cnext ps a else cnext ps q.
Proof.
  intros Hr Hr' Hnd Hqa.
  assert (NoDup (a :: rest)) as Hc by (by rewrite <- (rot_perm _ _ Hr)).
  assert (NoDup rest) as Hc' by (by apply NoDup_cons in Hc as [_ ?]).
  assert (NoDup ps') as Hnd' by (by rewrite (rot_perm _ _ Hr')).
  rewrite (cnext_rot ps' _ q Hnd' Hr'), !(cnext_rot ps _ _ Hnd Hr),
    (cprev_rot ps _ _ Hnd Hr).
  rewrite (cnext_head _ _ Hc), (cprev_head _ _ Hc).
  destruct (decide (q ∈ rest)) as [Hin|Hn].
  - apply list_elem_of_split in Hin as (m1 & m2 & ->).
    pose proof (cnext_at (a :: m1) m2 q Hc) as H1. simpl in H1.
    rewrite H1, (cnext_at _ _ _ Hc'). rewrite last_app.
    destruct m2 as [|c m2]; simpl.
    + rewrite decide_True by done. by destruct m1.
    + destruct (last (c :: m2)) as [y|] eqn:E; [|by apply last_None in E].
      simpl. rewrite decide_False; [done|]. intros ->.
      apply last_Some_elem_of in E.
      apply NoDup_cons in Hc as [_ Hc]. apply NoDup_app in Hc as (_ & _ & Hc).
      by apply NoDup_cons in Hc as [Hq _].
  - rewrite (cnext_notin rest) by done.
    rewrite (cnext_notin (a :: rest)) by (rewrite not_elem_of_cons; done).
    case_decide as Hq; [|done]. exfalso. apply Hn.
    destruct (last rest) as [y|] eqn:E; simpl in Hq; subst.
    + by apply last_Some_elem_of.
    + done.
Qed.

Lemma rot_trans l l' l'' : rot l l' → rot l' l'' → rot l l''.
Proof.
  intros (l1 & l2 & -> & ->) (m1 & m2 & E & ->).
  apply app_eq_inv in E as [(k & -> & ->)|(k & -> & ->)].
  - exists (l1 ++ m1), k. by rewrite <- !app_assoc.
  - exists k, (m2 ++ l2). by rewrite <- !app_assoc.
Qed.

Lemma rot_snoc_cons r a : rot (r ++ [a]) (a :: r).
Proof. by exists r, [a]. Qed.

Lemma ring_remove_cprev ps ps' a rest q :
  rot ps (a :: rest) → rot ps' rest → NoDup ps → q ≠ a →
  cprev ps' q = if decide (q = cnext ps a) then cprev ps a else cprev ps q.
Proof.
  intros Hr Hr' Hnd Hqa.
  pose proof (ring_remove_cnext (reverse ps) (reverse ps') a (reverse rest) q) as H.
  unfold cprev in *. rewrite reverse_involutive in H. apply H; [| | |done].
  - apply rot_reverse in Hr. rewrite reverse_cons in Hr.
    eapply rot_trans; [exact Hr|]. apply rot_snoc_cons.
  - by apply rot_reverse.
  - by rewrite reverse_Permutation.
Qed.



(** The time list after [a] is taken out. *)
Lemma time_remove_tnext l1 l2 a q :
  NoDup (l1 ++ a :: l2) → q ∈ l1 ++ l2 →
  tnext (l1 ++ l2) q
  = if decide (Some q = last l1) then tnext (l1 ++ a :: l2) a
    else tnext (l1 ++ a :: l2) q.
Proof.
  intros Hnd Hin.
  assert (NoDup (l1 ++ l2)) as Hnd'.
  { apply NoDup_app in Hnd as (H1 & H2 & H3). apply NoDup_cons in H3 as [_ H3].
    apply NoDup_app. split_and!; [done| |done]. intros y Hy Hy'. apply (H2 y Hy). by right. }
  rewrite (tnext_at _ _ _ Hnd).
  apply elem_of_app in Hin as [Hin|Hin].
  - apply list_elem_of_split in Hin as (m1 & m2 & ->).
    rewrite <- !app_assoc in *. simpl in *.
    rewrite (tnext_at _ _ _ Hnd), (tnext_at _ _ _ Hnd').
    rewrite last_app.
    destruct m2 as [|c m2]; simpl.
    + by rewrite decide_True.
    + destruct (last (c :: m2)) as [y|] eqn:E; [|by apply last_None in E].
      rewrite decide_False; [done|]. intros [= ->].
      apply last_Some_elem_of in E.
      apply NoDup_app in Hnd' as (_ & _ & Hd). apply NoDup_cons in Hd as [Hq _].
      apply Hq. apply elem_of_app. by left.
  - apply list_elem_of_split in Hin as (m1 & m2 & ->).
    rewrite decide_False.
    2:{ intros Hl. symmetry in Hl. apply last_Some_elem_of in Hl.
        apply NoDup_app in Hnd' as (_ & Hd & _). apply (Hd _ Hl).
        apply elem_of_app. right. left. }
    pose proof (tnext_at (l1 ++ a :: m1) m2 q) as H1.
    pose proof (tnext_at (l1 ++ m1) m2 q) as H2.
    rewrite <- !app_assoc in H1, H2. simpl in H1.
    by rewrite H1, H2.
Qed.

Lemma time_remove_tprev l1 l2 a q :
  NoDup (l1 ++ a :: l2) → q ∈ l1 ++ l2 →
  tprev (l1 ++ l2) q
  = if decide (Some q = head l2) then tprev (l1 ++ a :: l2) a
    else tprev (l1 ++ a :: l2) q.
Proof.
  intros Hnd Hin.
  pose proof (time_remove_tnext (reverse l2) (reverse l1) a q) as H.
  unfold tprev, tnext in *.
  rewrite !reverse_app, reverse_cons, <- !app_assoc. simpl.
  rewrite last_reverse in H. apply H.
  - assert (reverse l2 ++ a :: reverse l1 ≡ₚ l1 ++ a :: l2) as ->; [|done].
    rewrite !reverse_Permutation, Permutation_app_comm. simpl.
    apply Permutation_middle.
  - rewrite elem_of_app, !elem_of_reverse. apply elem_of_app in Hin. tauto.
Qed.

(** *** Headers as field functions *)

Lemma node_in_fields_set p n φ q :
  node_in (fields_set p n φ) q = if decide (q = p) then n else node_in φ q.
Proof.
  unfold node_in, fields_set, upd. simpl. case_decide; [by destruct n|done].
Qed.

Lemma models_nonnull rb S φ q : models rb S φ → q ∈ S → q ≠ NULL.
Proof. intros Hm Hq. by destruct (node_at_Some _ _ _ (Hm q Hq)). Qed.

Lemma models_hdr rb rb' S φ : nodes rb = nodes rb' → models rb S φ → models rb' S φ.
Proof. intros E Hm q Hq. unfold node_at. rewrite <- E. apply (Hm q Hq). Qed.

Lemma models_ext rb S φ φ' :
  (∀ q, q ∈ S → node_in φ q = node_in φ' q) → models rb S φ → models rb S φ'.
Proof. intros E Hm q Hq. rewrite <- E by done. by apply Hm. Qed.

Lemma models_subseteq rb S S' φ : S' ⊆ S → models rb S φ → models rb S' φ.
Proof. intros Hs Hm q Hq. apply Hm. by apply Hs. Qed.

(** A store to a header that [φ] describes. *)
Lemma store_models rb S φ p f :
  models rb S φ → p ∈ S →
  ∃ rb', store p f rb = Some rb' ∧
    cache rb' = cache rb ∧ capacity rb' = capacity rb ∧ lost rb' = lost rb ∧
    HEAD rb' = HEAD rb ∧ TAIL rb' = TAIL rb ∧ oldest_reserve rb' = oldest_reserve rb ∧
    models rb' S (fields_set p (f (node_in φ p)) φ).
Proof.
  intros Hm Hp. pose proof (models_nonnull _ _ _ _ Hm Hp) as Hnn.
  destruct (store_exists p f rb Hnn) as (rb' & Hst & Hh).
  exists rb'. split; [done|]. destruct_and?. split_and!; try done.
  intros q Hq. rewrite (node_at_store _ _ _ _ _ Hst), node_in_fields_set.
  case_decide; [|by apply Hm].
  by rewrite (node_at_default _ _ _ (Hm p Hp)).
Qed.


Lemma upd_eq {A} p (v : A) f : upd p v f p = v.
Proof. unfold upd. by rewrite decide_True. Qed.

Lemma upd_ne {A} p (v : A) f q : q ≠ p → upd p v f q = f q.
Proof. intros. unfold upd. by rewrite decide_False. Qed.

(** The six stores of the source, on field functions. *)
Section store_field.
Context (rb : ring_buffer) (S : list Z) (F B N O : Z → Z)
        (St : Z → ring_buffer_node_state) (L : Z → Z) (p : Z).
Hypothesis Hm : models rb S (mk_fields F B N O St L).
Hypothesis Hp : p ∈ S.

Lemma store_field f φ' :
  (∀ q, node_in (fields_set p (f (node_in (mk_fields F B N O St L) p))
                   (mk_fields F B N O St L)) q = node_in φ' q) →
  stored rb S p f φ'.
Proof.
  intros E. destruct (store_models _ _ _ p f Hm Hp) as (rb' & ? & ? & ? & ? & ? & ? & ? & Hm').
  exists rb'. split_and!; try done. eapply models_ext; [|exact Hm']. auto.
Qed.

Lemma store_p_forward v : stored rb S p (set_p_forward v) (mk_fields (upd p v F) B N O St L).
Proof.
  apply store_field. intros q. unfold node_in, fields_set, upd. simpl.
  by case_decide; subst.
Qed.

Lemma store_p_backward v : stored rb S p (set_p_backward v) (mk_fields F (upd p v B) N O St L).
Proof.
  apply store_field. intros q. unfold node_in, fields_set, upd. simpl.
  by case_decide; subst.
Qed.

Lemma store_p_newer v : stored rb S p (set_p_newer v) (mk_fields F B (upd p v N) O St L).
Proof.
  apply store_field. intros q. unfold node_in, fields_set, upd. simpl.
  by case_decide; subst.
Qed.

Lemma store_p_older v : stored rb S p (set_p_older v) (mk_fields F B N (upd p v O) St L).
Proof.
  apply store_field. intros q. unfold node_in, fields_set, upd. simpl.
  by case_decide; subst.
Qed.

Lemma store_state v : stored rb S p (set_state v) (mk_fields F B N O (upd p v St) L).
Proof.
  apply store_field. intros q. unfold node_in, fields_set, upd. simpl.
  by case_decide; subst.
Qed.

Lemma store_len v : stored rb S p (set_len v) (mk_fields F B N O St (upd p v L)).
Proof.
  apply store_field. intros q. unfold node_in, fields_set, upd. simpl.
  by case_decide; subst.
Qed.
End store_field.

(** *** Symbolic execution on field functions *)

Ltac elem_tac :=
  first [ assumption
        | by (apply elem_of_cons; left)
        | by (apply elem_of_cons; right)
        | by (apply elem_of_app; right; left) ].

Ltac upd_simpl :=
  repeat match goal with
  | |- context [upd ?p ?v ?f ?p] => rewrite (upd_eq p v f)
  | |- context [upd ?p ?v ?f ?q] => rewrite (upd_ne p v f q) by side
  end.

Ltac m_store :=
  let go lem :=
    let rb' := fresh "rb" in let Hm' := fresh "Hm" in
    (destruct lem as (rb' & -> & ? & ? & ? & ? & ? & ? & Hm'); simpl)
  in
  match goal with
  | Hm : models ?rb ?S (mk_fields ?F ?B ?N ?O ?St ?L)
    |- context [store ?p (set_p_forward ?v) ?rb] =>
      go (store_p_forward rb S F B N O St L p Hm ltac:(elem_tac) v); clear Hm
  | Hm : models ?rb ?S (mk_fields ?F ?B ?N ?O ?St ?L)
    |- context [store ?p (set_p_backward ?v) ?rb] =>
      go (store_p_backward rb S F B N O St L p Hm ltac:(elem_tac) v); clear Hm
  | Hm : models ?rb ?S (mk_fields ?F ?B ?N ?O ?St ?L)
    |- context [store ?p (set_p_newer ?v) ?rb] =>
      go (store_p_newer rb S F B N O St L p Hm ltac:(elem_tac) v); clear Hm
  | Hm : models ?rb ?S (mk_fields ?F ?B ?N ?O ?St ?L)
    |- context [store ?p (set_p_older ?v) ?rb] =>
      go (store_p_older rb S F B N O St L p Hm ltac:(elem_tac) v); clear Hm
  | Hm : models ?rb ?S (mk_fields ?F ?B ?N ?O ?St ?L)
    |- context [store ?p (set_state ?v) ?rb] =>
      go (store_state rb S F B N O St L p Hm ltac:(elem_tac) v); clear Hm
  | Hm : models ?rb ?S (mk_fields ?F ?B ?N ?O ?St ?L)
    |- context [store ?p (set_len ?v) ?rb] =>
      go (store_len rb S F B N O St L p Hm ltac:(elem_tac) v); clear Hm
  end.

Ltac m_load :=
  match goal with
  | Hm : models ?rb ?S _ |- context [node_at ?rb ?p] =>
      rewrite (Hm p ltac:(elem_tac)); simpl; upd_simpl
  end.

Ltac hdr_rw :=
  repeat match goal with
  | H : HEAD ?r = _ |- context [HEAD ?r] => rewrite H
  | H : TAIL ?r = _ |- context [TAIL ?r] => rewrite H
  | H : oldest_reserve ?r = _ |- context [oldest_reserve ?r] => rewrite H
  | H : lost ?r = _ |- context [lost ?r] => rewrite H
  | H : cache ?r = _ |- context [cache ?r] => rewrite H
  | H : capacity ?r = _ |- context [capacity ?r] => rewrite H
  end.

Ltac m_load_hdr :=
  match goal with
  | Hm : models ?rb ?S ?φ |- context [node_at ?r ?p] =>
      rewrite (models_hdr rb r S φ eq_refl Hm p ltac:(elem_tac)); simpl; upd_simpl
  end.

(** Close a [models] goal with the fact at hand, up to header fields. *)
Ltac m_final :=
  match goal with
  | H : models _ _ _ |- models _ _ _ => eapply models_hdr; [|exact H]
  end.

(** *** Removal of a node *)


Lemma remove_NoDup (l1 l2 : list Z) a :
  NoDup (l1 ++ a :: l2) → NoDup (l1 ++ l2) ∧ a ∉ l1 ++ l2.
Proof.
  intros Hnd. rewrite <- Permutation_middle in Hnd.
  by apply NoDup_cons in Hnd as [? ?].
Qed.

Lemma remove_elem (l1 l2 : list Z) a q :
  NoDup (l1 ++ a :: l2) → q ∈ l1 ++ l2 → q ∈ l1 ++ a :: l2 ∧ q ≠ a.
Proof.
  intros [_ Hn]%remove_NoDup Hq. split; [|by intros ->].
  rewrite <- Permutation_middle. by right.
Qed.

(** What the field functions must be after the removal. *)
Lemma Rep_removed rb' l1 l2 k1 k2 a st ln F B N O :
  let ts := l1 ++ a :: l2 in
  let ps := k1 ++ a :: k2 in
  NoDup ts → ps ≡ₚ ts →
  models rb' ts (mk_fields F B N O st ln) →
  (∀ q, q ∈ l1 ++ l2 → q ≠ a →
     F q = (if decide (q = cprev ps a) then cnext ps a else cnext ps q) ∧
     B q = (if decide (q = cnext ps a) then cprev ps a else cprev ps q) ∧
     N q = (if decide (Some q = last l1) then tnext ts a else tnext ts q) ∧
     O q = (if decide (Some q = head l2) then tprev ts a else tprev ts q)) →
  TAIL rb' = default NULL (head (l1 ++ l2)) →
  HEAD rb' = default NULL (last (l1 ++ l2)) →
  Rep rb' (l1 ++ l2) (k1 ++ k2) st ln.
Proof.
  intros ts ps Hnd Hperm Hm Hf Ht Hh. split_and!; [|done..].
  assert (NoDup ps) as Hndp by (by rewrite Hperm).
  intros q Hq. destruct (remove_elem _ _ _ _ Hnd Hq) as [Hqt Hqa].
  rewrite (Hm q Hqt). f_equal. unfold node_in, chain_fields. simpl.
  destruct (Hf q Hq Hqa) as (-> & -> & -> & ->).
  assert (rot ps (a :: k2 ++ k1)) as Hr1 by (by exists k1, (a :: k2)).
  assert (rot (k1 ++ k2) (k2 ++ k1)) as Hr2 by (by exists k1, k2).
  rewrite (ring_remove_cnext ps (k1 ++ k2) a (k2 ++ k1) q Hr1 Hr2 Hndp Hqa).
  rewrite (ring_remove_cprev ps (k1 ++ k2) a (k2 ++ k1) q Hr1 Hr2 Hndp Hqa).
  rewrite (time_remove_tnext l1 l2 a q Hnd Hq).
  rewrite (time_remove_tprev l1 l2 a q Hnd Hq).
  done.
Qed.

Lemma sole_lists (l1 l2 k1 k2 : list Z) a :
  k1 ++ a :: k2 ≡ₚ l1 ++ a :: l2 → k1 ++ a :: k2 = [a] →
  l1 = [] ∧ l2 = [] ∧ k1 = [] ∧ k2 = [].
Proof.
  intros Hperm E.
  assert (length (l1 ++ a :: l2) = 1%nat) as Hl by (by rewrite <- Hperm, E).
  rewrite length_app in Hl. simpl in Hl.
  assert (length (k1 ++ a :: k2) = 1%nat) as Hl' by (by rewrite E).
  rewrite length_app in Hl'. simpl in Hl'.
  destruct l1, l2, k1, k2; simpl in *; try lia. done.
Qed.

(** [_ring_buffer_delete_node] takes the node out of both lists. *)
Lemma delete_node_rep rb l1 l2 k1 k2 a st ln :
  let ts := l1 ++ a :: l2 in
  let ps := k1 ++ a :: k2 in
  Rep rb ts ps st ln → NoDup ts → ps ≡ₚ ts →
  ∃ rb',
    _ring_buffer_delete_node rb a = Some rb' ∧
    Rep rb' (l1 ++ l2) (k1 ++ k2) st ln ∧
    cache rb' = cache rb ∧ capacity rb' = capacity rb ∧ lost rb' = lost rb ∧
    oldest_reserve rb' =
      (if decide (l1 ++ l2 = []) then NULL
       else if decide (oldest_reserve rb = a) then tnext ts a
       else oldest_reserve rb).
Proof.
  intros ts ps Hrep Hnd Hperm.
  pose proof Hrep as (Hm & Htail & Hhead).
  assert (NoDup ps) as Hndp by (by rewrite Hperm).
  assert (a ∈ ts) as Hat by (apply elem_of_app; right; left).
  pose proof (models_nonnull _ _ _ _ Hm Hat) as Han.
  assert (a ∈ ps) as Hap by (by rewrite Hperm).
  assert (cnext ps a ∈ ts) as Hf by (rewrite <- Hperm; by apply cnext_elem).
  assert (cprev ps a ∈ ts) as Hb by (rewrite <- Hperm; by apply cprev_elem).
  unfold _ring_buffer_delete_node.
  unfold chain_fields in Hm. m_load.
  destruct (decide (ps = [a])) as [Hsole|Hns].
  { destruct (sole_lists _ _ _ _ _ Hperm Hsole) as (-> & -> & -> & ->).
    rewrite (proj2 (cprev_self ps a Hap Hndp) Hsole).
    rewrite (proj2 (cnext_self ps a Hap Hndp) Hsole).
    rewrite !Z.eqb_refl. simpl.
    eexists. split; [done|]. simpl. split_and!; try done.
    split_and!; try done. intros q Hq. by apply elem_of_nil in Hq. }
  assert (cnext ps a ≠ a) as Hfa by (by rewrite cnext_self).
  assert (cprev ps a ≠ a) as Hba by (by rewrite cprev_self).
  replace ((cprev ps a =? a) && (cnext ps a =? a)) with false.
  2:{ symmetry. apply andb_false_iff. left. by apply Z.eqb_neq. }
  assert (l1 ++ l2 ≠ []) as Hne.
  { intros E. apply app_eq_nil in E as [-> ->]. apply Hns.
    by apply Permutation_singleton_r in Hperm. }
  rewrite (decide_False (P := l1 ++ l2 = [])) by done.
  pose proof (tprev_at l1 l2 a Hnd) as Hprev. fold ts in Hprev.
  pose proof (tnext_at l1 l2 a Hnd) as Hnext. fold ts in Hnext.
  destruct (decide (l1 = [])) as [->|Hl1].
  - (* the oldest node *)
    destruct l2 as [|n l2']; [done|]. simpl in Hprev, Hnext.
    rewrite Hprev. rewrite decide_True by done.
    assert (TAIL rb = a) as Ht by (by rewrite Htail).
    assert (n ∈ ts) as Hn by (right; left).
    assert (n ≠ a) as Hna.
    { intros ->. apply NoDup_cons in Hnd as [Hx _]. apply Hx. left. }
    unfold _ring_buffer_remove_tail, _ring_buffer_remove_node_chain_pos.
    rewrite Ht. m_load. m_store. m_load. m_store.
    hdr_rw. m_load. rewrite Hnext. m_store. hdr_rw. m_load.
    eexists. split; [done|]. rewrite Hnext. split_and!.
    + eapply (Rep_removed _ [] (n :: l2') k1 k2 a); [done|done| | | |].
      * m_final. by case_decide.
      * intros q Hq Hqa. simpl. split_and!; try done.
        unfold upd. case_decide as E1; case_decide as E2; try done;
          simplify_eq; done.
      * by case_decide.
      * by case_decide; simpl; hdr_rw; unfold ts; simpl.
    + by case_decide; simpl; hdr_rw.
    + by case_decide; simpl; hdr_rw.
    + by case_decide; simpl; hdr_rw.
    + by case_decide; simpl; hdr_rw.
  - (* a node that has an older one *)
    destruct (last l1) as [o|] eqn:Hlast; [|by apply last_None in Hlast].
    simpl in Hprev.
    assert (o ∈ ts) as Ho.
    { apply elem_of_app. left. by apply last_Some_elem_of. }
    pose proof (models_nonnull _ _ _ _ Hm Ho) as Hon.
    assert (o ≠ a) as Hoa.
    { intros ->. apply NoDup_app in Hnd as (_ & Hd & _).
      apply (Hd a); [by apply last_Some_elem_of|left]. }
    rewrite Hprev. rewrite (decide_False (P := o = NULL)) by done.
    destruct l2 as [|n l2'].
    + (* the newest node *)
      simpl in Hnext. rewrite Hnext. rewrite decide_True by done.
      assert (HEAD rb = a) as Hh.
      { rewrite Hhead. unfold ts. by rewrite last_snoc. }
      unfold _ring_buffer_remove_head, _ring_buffer_remove_node_chain_pos.
      rewrite Hh. m_load. m_store. m_load. m_store.
      hdr_rw. m_load. rewrite Hprev. m_store. hdr_rw. simpl.
      destruct (decide (oldest_reserve rb = a)) as [Hor|Hor]; simpl; hdr_rw;
        m_load_hdr; rewrite ?Hprev, ?Hnext.
      all: eexists; (split; [done|]); (split; [|by simpl; hdr_rw]).
      all: eapply (Rep_removed _ l1 [] k1 k2 a); [done|done| | | |].
      all: try (by m_final).
      all: try (by simpl; hdr_rw; unfold ts; rewrite app_nil_r; destruct l1).
      all: try (by simpl; rewrite app_nil_r, Hlast).
      all: intros q Hq Hqa; simpl; split_and!; try done.
      all: unfold upd; rewrite ?Hlast, ?Hnext.
      all: case_decide as E1; case_decide as E2; try done; simplify_eq; done.
    + (* a node between two others *)
      simpl in Hnext.
      assert (n ∈ ts) as Hn.
      { apply elem_of_app. right. right. left. }
      pose proof (models_nonnull _ _ _ _ Hm Hn) as Hnn.
      assert (n ≠ a) as Hna.
      { intros ->. apply NoDup_app in Hnd as (_ & _ & Hd).
        apply NoDup_cons in Hd as [Hx _]. apply Hx. left. }
      rewrite Hnext. rewrite (decide_False (P := n = NULL)) by done.
      unfold _ring_buffer_remove_node_chain_pos.
      m_load. m_store. m_load. m_store.
      m_load. rewrite Hprev, Hnext. m_store.
      m_load. rewrite Hprev, Hnext. m_store.
      m_load.
      hdr_rw. rewrite Hnext.
      destruct (decide (oldest_reserve rb = a)) as [Hor|Hor]; simpl.
      all: eexists; (split; [done|]); (split; [|by simpl; hdr_rw]).
      all: eapply (Rep_removed _ l1 (n :: l2') k1 k2 a); [done|done| | | |].
      all: try (by m_final).
      all: try (by simpl; hdr_rw; unfold ts; destruct l1).
      all: try (by simpl; hdr_rw; unfold ts; rewrite !last_app, !last_cons_cons).
      all: intros q Hq Hqa; simpl; split_and!; try done.
      all: unfold upd; rewrite ?Hlast, ?Hnext, ?Hprev.
      all: case_decide as E1; case_decide as E2; try done; simplify_eq; done.
Qed.

(** *** Insertion of a node *)



(** *** The first node, consume and commit *)


Lemma reserve_empty_rep rb data_len node_size st ln :
  node_size ≤ capacity rb → cache rb ≠ NULL →
  ∃ rb',
    _ring_buffer_reserve_empty rb data_len node_size = Some (rb', token_of (cache rb)) ∧
    Rep rb' [cache rb] [cache rb] (upd (cache rb) writing st) (upd (cache rb) data_len ln) ∧
    cache rb' = cache rb ∧ capacity rb' = capacity rb ∧ lost rb' = lost rb ∧
    oldest_reserve rb' = cache rb.
Proof.
  intros Hfit Hc.
  destruct (reserve_empty_spec rb data_len node_size Hfit Hc)
    as (rb' & Hr & ? & ? & ? & ? & ? & ? & Hn).
  exists rb'. split; [done|]. split; [|done].
  split; [|done].
  intros q ->%list_elem_of_singleton. rewrite Hn. f_equal.
  unfold node_in, chain_fields. simpl.
  assert (NoDup [cache rb]) as Hnd by apply NoDup_singleton.
  rewrite (cnext_head [] _ Hnd), (cprev_head [] _ Hnd).
  pose proof (tnext_at [] [] _ Hnd) as Hx1. pose proof (tprev_at [] [] _ Hnd) as Hx2.
  simpl in Hx1, Hx2. rewrite Hx1, Hx2.
  by rewrite !upd_eq.
Qed.

Lemma consume_rep rb ts ps st ln a lost_p :
  Rep rb ts ps st ln → oldest_reserve rb = a → a ∈ ts → st a = committed →
  ∃ rb',
    ring_buffer_consume rb lost_p
    = Some (rb', token_of a, if decide (lost_p = NULL) then None else Some (lost rb)) ∧
    Rep rb' ts ps (upd a reading st) ln ∧
    cache rb' = cache rb ∧ capacity rb' = capacity rb ∧ lost rb' = 0 ∧
    oldest_reserve rb' = tnext ts a.
Proof.
  intros (Hm & Htail & Hhead) Ho Ha Hst.
  pose proof (models_nonnull _ _ _ _ Hm Ha) as Han.
  unfold ring_buffer_consume. rewrite Ho.
  rewrite decide_False by done. unfold chain_fields in Hm.
  m_load. rewrite Hst. rewrite bool_decide_eq_true_2 by done. simpl.
  rewrite ?Ho. m_load_hdr.
  pose proof (models_hdr rb (set_oldest_reserve (tnext ts a) (set_lost 0 rb)) _ _
                eq_refl Hm) as Hm'. clear Hm.
  m_store.
  eexists. split; [done|]. split; [|by hdr_rw].
  split; [|by hdr_rw]. done.
Qed.


Lemma CONTAINER_FOR_token a : CONTAINER_FOR (token_of a) = a.
Proof. unfold CONTAINER_FOR, token_of. lia. Qed.

Lemma commit_write_confirm_rep rb ts ps st ln a flags :
  Rep rb ts ps st ln → a ∈ ts → st a = writing →
  has_flag flags ring_buffer_flag_discard = false →
  ∃ rb',
    ring_buffer_commit rb (token_of a) flags = Some (rb', 0) ∧
    Rep rb' ts ps (upd a committed st) ln ∧
    cache rb' = cache rb ∧ capacity rb' = capacity rb ∧ lost rb' = lost rb ∧
    oldest_reserve rb' = oldest_reserve rb.
Proof.
  intros (Hm & Htail & Hhead) Ha Hst Hfl.
  unfold ring_buffer_commit. rewrite CONTAINER_FOR_token.
  unfold chain_fields in Hm. m_load. rewrite Hst. simpl.
  unfold _ring_buffer_commit_for_write. rewrite Hfl.
  unfold _ring_buffer_commit_for_write_confirm.
  m_store. eexists. split; [done|]. split; [|by hdr_rw].
  split; [|by hdr_rw]. done.
Qed.

Lemma commit_delete_rep rb l1 l2 k1 k2 a st ln flags :
  let ts := l1 ++ a :: l2 in
  let ps := k1 ++ a :: k2 in
  Rep rb ts ps st ln → NoDup ts → ps ≡ₚ ts →
  (st a = writing ∧ has_flag flags ring_buffer_flag_discard = true) ∨
  (st a ≠ writing ∧ has_flag flags ring_buffer_flag_discard = false) →
  ∃ rb',
    ring_buffer_commit rb (token_of a) flags = Some (rb', 0) ∧
    Rep rb' (l1 ++ l2) (k1 ++ k2) st ln ∧
    cache rb' = cache rb ∧ capacity rb' = capacity rb ∧ lost rb' = lost rb ∧
    oldest_reserve rb' =
      (if decide (l1 ++ l2 = []) then NULL
       else if decide (oldest_reserve rb = a) then tnext ts a
       else oldest_reserve rb).
Proof.
  intros ts ps Hrep Hnd Hperm Hcase.
  destruct (delete_node_rep rb l1 l2 k1 k2 a st ln Hrep Hnd Hperm)
    as (rb' & Hdel & Hrest).
  pose proof Hrep as (Hm & _).
  assert (a ∈ ts) as Ha by (apply elem_of_app; right; left).
  unfold ring_buffer_commit. rewrite CONTAINER_FOR_token.
  rewrite (Hm a Ha). simpl.
  exists rb'. split; [|done].
  destruct Hcase as [[Hst Hfl]|[Hst Hfl]].
  - rewrite Hst. simpl. unfold _ring_buffer_commit_for_write. rewrite Hfl.
    unfold _ring_buffer_commit_for_write_discard. by rewrite Hdel.
  - rewrite bool_decide_eq_false_2 by done.
    unfold _ring_buffer_commit_for_consume. rewrite Hfl.
    unfold _ring_buffer_commit_for_consume_confirm. by rewrite Hdel.
Qed.

(** *** Layout *)

Lemma node_cost_valid l : valid_len l → l + 48 ≤ _ring_buffer_node_cost l < SIZE_MAX1.
Proof.
  intros [H0 H1]. rewrite node_cost_small by done.
  unfold SIZE_MAX1 in *. Z.div_mod_to_equations. lia.
Qed.















(** *** Lists of record numbers *)










(** *** The starting point *)



(** *** The end: what the history says about the order of [consume] *)


(** *** One call keeps the history consistent *)




Lemma token_of_inj a b : token_of a = token_of b → a = b.
Proof. unfold token_of. lia. Qed.















(** ** Further properties of the calls *)

(** *** The size of a node *)

Lemma node_cost_huge len :
  SIZE_MAX1 - 55 ≤ len < SIZE_MAX1 →
  _ring_buffer_node_cost len = 8 * ((len + 55 - SIZE_MAX1) / 8).
Proof.
  intros Hl. unfold _ring_buffer_node_cost, sizeof_node.
  destruct (Z.lt_ge_cases (48 + len) SIZE_MAX1) as [Hlt|Hge].
  - rewrite (wrap_small (48 + len)) by (unfold SIZE_MAX1 in *; lia).
    unfold ALIGN_SIZE, sizeof_ptr. change (wrap (wrap 8 - 1)) with 7.
    rewrite (wrap_small (48 + len)) by (unfold SIZE_MAX1 in *; lia).
    assert (wrap (48 + len + 7) = len + 55 - SIZE_MAX1) as ->.
    { unfold wrap. symmetry. apply (Z.mod_unique _ _ 1); unfold SIZE_MAX1 in *; lia. }
    apply land_align_mask. unfold SIZE_MAX1 in *; lia.
  - assert (wrap (48 + len) = len + 48 - SIZE_MAX1) as ->.
    { unfold wrap. symmetry. apply (Z.mod_unique _ _ 1); unfold SIZE_MAX1 in *; lia. }
    rewrite ALIGN_SIZE_8 by (unfold SIZE_MAX1 in *; lia).
    f_equal. f_equal. lia.
Qed.

(** [ring_buffer_node_cost]: for a length that does not wrap, the node size
    is the header plus the payload, rounded up to the next multiple of the
    pointer size; it grows with the length. *)
Theorem node_cost_covers_header_and_payload len :
  valid_len len →
  ring_buffer_node_cost len mod sizeof_ptr = 0 ∧
  sizeof_node + len ≤ ring_buffer_node_cost len < sizeof_node + len + sizeof_ptr ∧
  (∀ len', valid_len len' → len ≤ len' →
     ring_buffer_node_cost len ≤ ring_buffer_node_cost len').
Proof.
  intros [H0 H1]. unfold ring_buffer_node_cost, sizeof_ptr, sizeof_node.
  rewrite node_cost_small by done. split_and!.
  - rewrite Z.mul_comm. apply Z.mod_mul. lia.
  - Z.div_mod_to_equations. lia.
  - Z.div_mod_to_equations. lia.
  - intros len' [H0' H1'] Hle. rewrite node_cost_small by done.
    assert ((len + 55) / 8 ≤ (len' + 55) / 8) by (apply Z.div_le_mono; lia). lia.
Qed.

Lemma node_cost_covers_header_and_payload_witness :
  valid_len 5 ∧
  ring_buffer_node_cost 5 mod sizeof_ptr = 0 ∧
  sizeof_node + 5 ≤ ring_buffer_node_cost 5 < sizeof_node + 5 + sizeof_ptr ∧
  (∀ len', valid_len len' → 5 ≤ len' →
     ring_buffer_node_cost 5 ≤ ring_buffer_node_cost len').
Proof.
  split; [unfold valid_len, SIZE_MAX1; lia|].
  apply (node_cost_covers_header_and_payload 5). unfold valid_len, SIZE_MAX1; lia.
Defined.

(** [_ring_buffer_node_cost] on the 55 largest lengths: the sum wraps, the
    node size is at most one bare header, and [reserve] on an empty buffer
    that holds one header hands out a token whose [len] is that length. *)
Theorem node_cost_wraps_for_largest_lengths len rb flags :
  SIZE_MAX1 - 55 ≤ len < SIZE_MAX1 →
  TAIL rb = NULL → cache rb ≠ NULL → sizeof_node ≤ capacity rb →
  ring_buffer_node_cost len ≤ sizeof_node ∧
  ∃ rb',
    ring_buffer_reserve rb len flags = Some (rb', token_of (cache rb)) ∧
    node_at rb' (cache rb)
    = Some (mk_node (cache rb) (cache rb) NULL NULL writing len).
Proof.
  intros Hl Ht Hc Hcap.
  assert (_ring_buffer_node_cost len ≤ sizeof_node) as Hcost.
  { rewrite node_cost_huge by done. unfold sizeof_node, SIZE_MAX1 in *.
    Z.div_mod_to_equations. lia. }
  split; [done|].
  unfold ring_buffer_reserve. rewrite decide_True by done.
  destruct (reserve_empty_spec rb len (_ring_buffer_node_cost len))
    as (rb' & Hr & _ & _ & _ & _ & _ & _ & Hn); [lia|done|].
  eauto.
Qed.

Lemma node_cost_wraps_for_largest_lengths_witness :
  (SIZE_MAX1 - 55 ≤ SIZE_MAX1 - 1 < SIZE_MAX1 ∧
   TAIL (mk_rb 4144 256 0 NULL NULL NULL NULL ∅) = NULL ∧
   cache (mk_rb 4144 256 0 NULL NULL NULL NULL ∅) ≠ NULL ∧
   sizeof_node ≤ capacity (mk_rb 4144 256 0 NULL NULL NULL NULL ∅)) ∧
  ring_buffer_node_cost (SIZE_MAX1 - 1) ≤ sizeof_node ∧
  ∃ rb',
    ring_buffer_reserve (mk_rb 4144 256 0 NULL NULL NULL NULL ∅) (SIZE_MAX1 - 1) 0
    = Some (rb', token_of 4144) ∧
    node_at rb' 4144 = Some (mk_node 4144 4144 NULL NULL writing (SIZE_MAX1 - 1)).
Proof.
  split.
  - split; [unfold SIZE_MAX1; lia|]. split; [reflexivity|].
    split; [simpl; unfold NULL; lia|]. simpl. unfold sizeof_node. lia.
  - apply (node_cost_wraps_for_largest_lengths (SIZE_MAX1 - 1)
             (mk_rb 4144 256 0 NULL NULL NULL NULL ∅) 0).
    + unfold SIZE_MAX1; lia.
    + reflexivity.
    + simpl. unfold NULL. lia.
    + simpl. unfold sizeof_node. lia.
Defined.

(** *** What no call changes *)

Lemma delete_node_cfg rb node rb' :
  _ring_buffer_delete_node rb node = Some rb' →
  cache rb' = cache rb ∧ capacity rb' = capacity rb.
Proof.
  unfold _ring_buffer_delete_node, _ring_buffer_remove_tail, _ring_buffer_remove_head,
    _ring_buffer_remove_node_chain_pos.
  intros H. repeat inv_step H; inv_all; inv_stores; simplify_eq; simpl; try done.
  all: repeat case_decide; done.
Qed.

Lemma commit_cfg rb token flags rb' r :
  ring_buffer_commit rb token flags = Some (rb', r) →
  cache rb' = cache rb ∧ capacity rb' = capacity rb.
Proof.
  unfold ring_buffer_commit, _ring_buffer_commit_for_write,
    _ring_buffer_commit_for_consume, _ring_buffer_commit_for_write_discard,
    _ring_buffer_commit_for_write_confirm, _ring_buffer_commit_for_consume_discard,
    _ring_buffer_commit_for_consume_confirm.
  intros H. repeat inv_step H.
  all: repeat match goal with
       | H : _ring_buffer_delete_node _ _ = Some _ |- _ => apply delete_node_cfg in H as [? ?]
       | H : store _ _ _ = Some _ |- _ => apply store_hdr in H as (? & ? & _)
       end.
  all: simplify_eq; simpl in *; split; congruence.
Qed.

Lemma reserve_empty_cfg rb data_len node_size rb' t :
  _ring_buffer_reserve_empty rb data_len node_size = Some (rb', t) →
  cache rb' = cache rb ∧ capacity rb' = capacity rb.
Proof.
  unfold _ring_buffer_reserve_empty. intros H.
  repeat inv_step H; inv_stores; by simplify_eq.
Qed.

Lemma reserve_overwrite_cfg rb data_len node_size rb' t :
  _ring_buffer_reserve_overwrite rb data_len node_size = Some (rb', t) →
  cache rb' = cache rb ∧ capacity rb' = capacity rb.
Proof.
  unfold _ring_buffer_reserve_overwrite. intros H.
  case_decide; [by simplify_eq|].
  inv_step H. inv_step H; [by simplify_eq|].
  inv_step H.
  { inv_step H; [|by simplify_eq]. by apply reserve_empty_cfg in H. }
  inv_step H. destruct p as [[sum_size lost_node] node_end]. simpl in H.
  inv_step H; [by simplify_eq|].
  repeat inv_step H. all: inv_all.
  all: repeat match goal with
       | H : _ring_buffer_update_time_for_new_node _ _ = Some _ |- _ =>
           apply update_time_hdr in H as (? & ? & _)
       | H : store _ _ _ = Some _ |- _ => apply store_hdr in H as (? & ? & _)
       end.
  all: simplify_eq; simpl in *; split; congruence.
Qed.

Lemma reserve_cfg rb len flags rb' t :
  ring_buffer_reserve rb len flags = Some (rb', t) →
  cache rb' = cache rb ∧ capacity rb' = capacity rb.
Proof.
  unfold ring_buffer_reserve. case_decide; [apply reserve_empty_cfg|].
  unfold _ring_buffer_reserve_none_empty. intros Hr.
  inv_step Hr. repeat inv_step Hr; simplify_eq; try done.
  all: match goal with
       | H : _ring_buffer_insert_new_node _ _ _ = Some _ |- _ =>
           by apply insert_new_node_hdr in H as (? & ? & _)
       | H : _ring_buffer_reserve_overwrite _ _ _ = Some _ |- _ =>
           by apply reserve_overwrite_cfg in H
       end.
Qed.

Lemma consume_cfg rb lost_p rb' t out :
  ring_buffer_consume rb lost_p = Some (rb', t, out) →
  cache rb' = cache rb ∧ capacity rb' = capacity rb.
Proof.
  unfold ring_buffer_consume. intros H.
  case_decide; [by simplify_eq|].
  inv_step H. inv_step H; [by simplify_eq|].
  repeat inv_step H. inv_stores. by simplify_eq.
Qed.

(** No call moves or resizes the cache: after any sequence of [reserve],
    [commit] and [consume] that returns, [cfg.cache] and [cfg.capacity] are
    the ones [ring_buffer_init] set. *)
Theorem calls_keep_cache_and_capacity ops : ∀ rb rb' rets,
  run rb ops = Some (rb', rets) →
  cache rb' = cache rb ∧ capacity rb' = capacity rb ∧ length rets = length ops.
Proof.
  induction ops as [|o ops IH]; intros rb rb' rets H; simpl in H.
  - by simplify_eq.
  - destruct (exec rb o) as [[rb1 r]|] eqn:He; [|done]. simpl in H.
    destruct (run rb1 ops) as [[rb2 rs]|] eqn:Hr; [|done]. simpl in H.
    simplify_eq. destruct (IH _ _ _ Hr) as (Hc & Hcap & Hlen).
    assert (cache rb1 = cache rb ∧ capacity rb1 = capacity rb) as [Hc1 Hcap1].
    { destruct o as [len flags|token flags|lost_p]; simpl in He.
      - destruct (ring_buffer_reserve rb len flags) as [[? ?]|] eqn:E; [|done].
        simpl in He. simplify_eq. by eapply reserve_cfg.
      - destruct (ring_buffer_commit rb token flags) as [[? ?]|] eqn:E; [|done].
        simpl in He. simplify_eq. by eapply commit_cfg.
      - destruct (ring_buffer_consume rb lost_p) as [[[? ?] ?]|] eqn:E; [|done].
        simpl in He. simplify_eq. by eapply consume_cfg. }
    simpl. split_and!; congruence.
Qed.

Lemma calls_keep_cache_and_capacity_witness :
  ∃ rb' rets,
    run two_node_buffer [Commit 4184 0; Consume 0; Commit 4184 0; Reserve 100 1]
    = Some (rb', rets) ∧
    cache rb' = cache two_node_buffer ∧ capacity rb' = capacity two_node_buffer ∧
    length rets = 4%nat.
Proof.
  eexists _, _. split; [vm_compute; reflexivity|].
  eapply (calls_keep_cache_and_capacity
            [Commit 4184 0; Consume 0; Commit 4184 0; Reserve 100 1] two_node_buffer).
  vm_compute. reflexivity.
Defined.

(** *** The result of [commit] *)

Lemma two_readers_buffer_reachable :
  boot 4096 304 (three_committed ++ [Consume 0; Consume 0])
  = Some (two_readers_buffer,
          [RToken 4184; RStatus 0; RToken 4240; RStatus 0; RToken 4296; RStatus 0;
           RConsumed 4184 None; RConsumed 4240 None]).
Proof. vm_compute. reflexivity. Qed.

(** [ring_buffer_commit] returns 0 or -1.  It returns -1 only for a token
    that is not being written, committed with [DISCARD] and without
    [CONSUME_ON_ERROR], while the next newer node is held by a reader; the
    buffer is then left as it was. *)
Theorem commit_returns_0_or_refuses rb token flags rb' r :
  ring_buffer_commit rb token flags = Some (rb', r) →
  r = 0 ∨
  (r = -1 ∧ rb' = rb ∧
   has_flag flags ring_buffer_flag_discard = true ∧
   has_flag flags ring_buffer_flag_consume_on_error = false ∧
   ∃ n w, node_at rb (CONTAINER_FOR token) = Some n ∧ state n ≠ writing ∧
          p_newer n ≠ NULL ∧ node_at rb (p_newer n) = Some w ∧ state w = reading).
Proof.
  unfold ring_buffer_commit, _ring_buffer_commit_for_write,
    _ring_buffer_commit_for_consume, _ring_buffer_commit_for_write_discard,
    _ring_buffer_commit_for_write_confirm, _ring_buffer_commit_for_consume_confirm.
  intros H.
  destruct (node_at rb (CONTAINER_FOR token)) as [n|] eqn:Hn; simpl in H; [|done].
  inv_step_as H Hst.
  { repeat inv_step H; simplify_eq; by left. }
  apply bool_decide_eq_false in Hst.
  inv_step_as H Hd.
  2:{ repeat inv_step H; simplify_eq; by left. }
  unfold _ring_buffer_commit_for_consume_discard,
    _ring_buffer_commit_for_consume_confirm in H.
  rewrite Hn in H. simpl in H.
  destruct (decide (p_newer n = NULL)) as [Hnew|Hnew]; simpl in H.
  { repeat inv_step H; simplify_eq; by left. }
  destruct (node_at rb (p_newer n)) as [w|] eqn:Hw; simpl in H; [|done].
  destruct (bool_decide (state w = reading)) eqn:Hrd; simpl in H.
  - apply bool_decide_eq_true in Hrd.
    inv_step_as H Hc.
    + repeat inv_step H; simplify_eq; by left.
    + simplify_eq. right. split_and!; try done. eauto 10.
  - repeat inv_step H; simplify_eq; by left.
Qed.

Lemma commit_returns_0_or_refuses_witness :
  ring_buffer_commit two_readers_buffer 4184 ring_buffer_flag_discard
  = Some (two_readers_buffer, -1) ∧
  (-1 = 0 ∨
   (-1 = -1 ∧ two_readers_buffer = two_readers_buffer ∧
    has_flag ring_buffer_flag_discard ring_buffer_flag_discard = true ∧
    has_flag ring_buffer_flag_discard ring_buffer_flag_consume_on_error = false ∧
    ∃ n w, node_at two_readers_buffer (CONTAINER_FOR 4184) = Some n ∧
           state n ≠ writing ∧ p_newer n ≠ NULL ∧
           node_at two_readers_buffer (p_newer n) = Some w ∧ state w = reading)).
Proof.
  split; [vm_compute; reflexivity|].
  apply (commit_returns_0_or_refuses two_readers_buffer 4184 ring_buffer_flag_discard).
  vm_compute. reflexivity.
Defined.

(** [CONSUME_ON_ERROR]: a [commit] with [DISCARD] of a token that is not
    being written, while the next newer node is held by a reader, does with
    [CONSUME_ON_ERROR] what a [commit] without [DISCARD] does: the node is
    deleted. *)
Theorem consume_on_error_confirms rb token flags flags' n w :
  node_at rb (CONTAINER_FOR token) = Some n → state n ≠ writing →
  p_newer n ≠ NULL → node_at rb (p_newer n) = Some w → state w = reading →
  has_flag flags ring_buffer_flag_discard = true →
  has_flag flags ring_buffer_flag_consume_on_error = true →
  has_flag flags' ring_buffer_flag_discard = false →
  ring_buffer_commit rb token flags = ring_buffer_commit rb token flags' ∧
  ring_buffer_commit rb token flags
  = (rb' ← _ring_buffer_delete_node rb (CONTAINER_FOR token); Some (rb', 0)).
Proof.
  intros Hn Hst Hnew Hw Hrd Hd Hc Hd'.
  unfold ring_buffer_commit. rewrite Hn. simpl.
  rewrite bool_decide_eq_false_2 by done.
  unfold _ring_buffer_commit_for_consume. rewrite Hd, Hd'.
  unfold _ring_buffer_commit_for_consume_discard. rewrite Hn. simpl.
  rewrite decide_False by done. rewrite Hw. simpl.
  rewrite bool_decide_eq_true_2 by done. rewrite Hc. done.
Qed.

Lemma consume_on_error_confirms_witness :
  ∃ rb',
    ring_buffer_commit two_readers_buffer 4184 6 = Some (rb', 0) ∧
    time_chain 4 rb' (TAIL rb') = [4200; 4256] ∧
    ring_buffer_commit two_readers_buffer 4184 6
    = ring_buffer_commit two_readers_buffer 4184 0 ∧
    ring_buffer_commit two_readers_buffer 4184 6
    = (rb' ← _ring_buffer_delete_node two_readers_buffer (CONTAINER_FOR 4184);
       Some (rb', 0)).
Proof.
  eexists. split; [vm_compute; reflexivity|]. split; [vm_compute; reflexivity|].
  apply (consume_on_error_confirms two_readers_buffer 4184 6 0
           (mk_node 4200 4256 4200 0 reading 8)
           (mk_node 4256 4144 4256 4144 reading 8)); try (vm_compute; reflexivity).
  - simpl. discriminate.
  - simpl. unfold NULL. lia.
Defined.

(** *** The region handed to [ring_buffer_init] *)

(** [ring_buffer_init]: the cache of the handle starts at an address aligned
    to the pointer size, behind the header and less than one pointer size of
    padding; it ends exactly where the region ends; and the buffer starts
    empty: [consume] finds nothing. *)
Theorem init_cache_aligned_inside_region buffer size rb :
  0 ≤ buffer → buffer + 7 < SIZE_MAX1 → 0 ≤ size < SIZE_MAX1 →
  ring_buffer_init buffer size = Some rb →
  cache rb mod sizeof_ptr = 0 ∧
  buffer + ring_buffer_heap_cost ≤ cache rb < buffer + ring_buffer_heap_cost + sizeof_ptr ∧
  cache rb + capacity rb = buffer + size ∧
  0 < capacity rb ∧
  (∀ lost_p, ring_buffer_consume rb lost_p = Some (rb, NULL, None)).
Proof.
  intros H0 H1 Hs.
  assert (0 ≤ (- buffer) mod 8 < 8) as Hpad by (apply Z.mod_pos_bound; lia).
  unfold ring_buffer_init. rewrite ALIGN_PTR_pad by done.
  rewrite heap_cost_value.
  replace (buffer + (- buffer) mod 8 - buffer) with ((- buffer) mod 8) by lia.
  rewrite (wrap_small ((- buffer) mod 8)) by (unfold SIZE_MAX1 in *; lia).
  rewrite (wrap_small ((- buffer) mod 8 + 48)) by (unfold SIZE_MAX1 in *; lia).
  destruct (Z.geb_spec ((- buffer) mod 8 + 48) size) as [Hge|Hlt]; [done|].
  intros [= <-]. simpl.
  rewrite (wrap_small (size - (- buffer) mod 8)) by (unfold SIZE_MAX1 in *; lia).
  rewrite (wrap_small (size - (- buffer) mod 8 - 48)) by (unfold SIZE_MAX1 in *; lia).
  unfold sizeof_ptr. split_and!; try lia.
  - clear. Z.div_mod_to_equations. lia.
  - done.
Qed.

Lemma init_cache_aligned_inside_region_witness :
  ∃ rb,
    (0 ≤ 4099 ∧ 4099 + 7 < SIZE_MAX1 ∧ 0 ≤ 300 < SIZE_MAX1 ∧
     ring_buffer_init 4099 300 = Some rb) ∧
    cache rb mod sizeof_ptr = 0 ∧
    4099 + ring_buffer_heap_cost ≤ cache rb < 4099 + ring_buffer_heap_cost + sizeof_ptr ∧
    cache rb + capacity rb = 4099 + 300 ∧
    0 < capacity rb ∧
    (∀ lost_p, ring_buffer_consume rb lost_p = Some (rb, NULL, None)).
Proof.
  eexists. split.
  - split; [lia|]. split; [unfold SIZE_MAX1; lia|]. split; [unfold SIZE_MAX1; lia|].
    vm_compute. reflexivity.
  - apply (init_cache_aligned_inside_region 4099 300).
    + lia.
    + unfold SIZE_MAX1; lia.
    + unfold SIZE_MAX1; lia.
    + vm_compute. reflexivity.
Defined.

(** *** The buffer between two calls *)








(** *** The two chains between two calls *)



(** *** One record through an empty buffer *)

(** On an empty buffer a record that fits goes through the four calls and
    comes back as written: [reserve] puts it at the start of the cache,
    [commit] confirms it, [consume] returns the same token with the length
    asked for and the [lost] counter, and the second [commit] leaves the
    buffer empty again. *)
Theorem empty_buffer_round_trip rb data_len rflags cflags lost_p dflags :
  TAIL rb = NULL → cache rb ≠ NULL →
  ring_buffer_node_cost data_len ≤ capacity rb →
  has_flag cflags ring_buffer_flag_discard = false →
  has_flag dflags ring_buffer_flag_discard = false →
  ∃ rb1 rb2 rb3 rb4 n,
    ring_buffer_reserve rb data_len rflags = Some (rb1, token_of (cache rb)) ∧
    ring_buffer_commit rb1 (token_of (cache rb)) cflags = Some (rb2, 0) ∧
    ring_buffer_consume rb2 lost_p
    = Some (rb3, token_of (cache rb),
            if decide (lost_p = NULL) then None else Some (lost rb)) ∧
    node_at rb3 (cache rb) = Some n ∧ len n = data_len ∧ state n = reading ∧
    ring_buffer_commit rb3 (token_of (cache rb)) dflags = Some (rb4, 0) ∧
    TAIL rb4 = NULL ∧ HEAD rb4 = NULL ∧ oldest_reserve rb4 = NULL ∧ lost rb4 = 0.
Proof.
  intros Ht Hc Hfit Hcf Hdf. set (c := cache rb).
  assert (c ∈ [c]) as Hin by left.
  destruct (reserve_empty_rep rb data_len (_ring_buffer_node_cost data_len)
              (λ _, writing) (λ _, 0) Hfit Hc)
    as (rb1 & Hr1 & Hrep1 & _ & _ & Hl1 & Ho1). fold c in Hr1, Hrep1, Ho1.
  destruct (commit_write_confirm_rep rb1 _ _ _ _ c cflags Hrep1 Hin)
    as (rb2 & Hr2 & Hrep2 & _ & _ & Hl2 & Ho2); [by rewrite upd_eq|done|].
  destruct (consume_rep rb2 _ _ _ _ c lost_p Hrep2)
    as (rb3 & Hr3 & Hrep3 & _ & _ & Hl3 & Ho3);
    [congruence|done|by rewrite upd_eq|].
  assert (NoDup ([] ++ c :: [])) as Hnd by apply NoDup_singleton.
  destruct (commit_delete_rep rb3 [] [] [] [] c _ _ dflags Hrep3 Hnd)
    as (rb4 & Hr4 & Hrep4 & _ & _ & Hl4 & Ho4); [done| |].
  { right. by rewrite upd_eq. }
  pose proof Hrep3 as (Hm3 & _). pose proof Hrep4 as (_ & Ht4 & Hh4).
  exists rb1, rb2, rb3, rb4, (node_in (chain_fields [c] [c]
    (upd c reading (upd c committed (upd c writing (λ _, writing))))
    (upd c data_len (λ _, 0))) c).
  split_and!.
  - unfold ring_buffer_reserve. by rewrite decide_True.
  - done.
  - rewrite Hr3, Hl2, Hl1. done.
  - by apply Hm3.
  - simpl. by rewrite upd_eq.
  - simpl. by rewrite upd_eq.
  - done.
  - done.
  - done.
  - rewrite Ho4. by rewrite decide_True.
  - congruence.
Qed.

Lemma empty_buffer_round_trip_witness :
  (TAIL (mk_rb 4144 256 3 NULL NULL NULL NULL ∅) = NULL ∧
   cache (mk_rb 4144 256 3 NULL NULL NULL NULL ∅) ≠ NULL ∧
   ring_buffer_node_cost 200 ≤ capacity (mk_rb 4144 256 3 NULL NULL NULL NULL ∅) ∧
   has_flag 0 ring_buffer_flag_discard = false) ∧
  ∃ rb1 rb2 rb3 rb4 n,
    ring_buffer_reserve (mk_rb 4144 256 3 NULL NULL NULL NULL ∅) 200 1
    = Some (rb1, token_of 4144) ∧
    ring_buffer_commit rb1 (token_of 4144) 0 = Some (rb2, 0) ∧
    ring_buffer_consume rb2 8
    = Some (rb3, token_of 4144, if decide (8 = NULL) then None else Some 3) ∧
    node_at rb3 4144 = Some n ∧ len n = 200 ∧ state n = reading ∧
    ring_buffer_commit rb3 (token_of 4144) 0 = Some (rb4, 0) ∧
    TAIL rb4 = NULL ∧ HEAD rb4 = NULL ∧ oldest_reserve rb4 = NULL ∧ lost rb4 = 0.
Proof.
  split.
  - split; [reflexivity|]. split; [simpl; unfold NULL; lia|].
    split; [vm_compute; discriminate|reflexivity].
  - apply (empty_buffer_round_trip (mk_rb 4144 256 3 NULL NULL NULL NULL ∅) 200 1 0 8 0).
    + reflexivity.
    + simpl. unfold NULL. lia.
    + vm_compute. discriminate.
    + reflexivity.
    + reflexivity.
Defined.

(** *** Placement between two nodes *)

Lemma gap_buffer_reachable :
  boot 4096 304 [Reserve 8 0; Reserve 8 0; Reserve 96 0; Commit 4184 0; Commit 4240 0;
                 Consume 0; Consume 0; Commit 4184 0; Commit 4240 0; Reserve 8 0]
  = Some (gap_buffer,
          [RToken 4184; RToken 4240; RToken 4296; RStatus 0; RStatus 0;
           RConsumed 4184 None; RConsumed 4240 None; RStatus 0; RStatus 0;
           RToken 4184]).
Proof. vm_compute. reflexivity. Qed.

(** [_ring_buffer_reserve_none_empty] with a node to the right of [HEAD]:
    the only room looked at is the one between the end of [HEAD] and that
    node.  If the new node fits there it is placed right behind [HEAD] and
    becomes [HEAD]; if not, neither the end nor the start of the cache is
    tried: the call runs the overwrite when flagged and returns [NULL] when
    not. *)
Theorem reserve_between_nodes rb data_len flags h :
  TAIL rb ≠ NULL →
  node_at rb (HEAD rb) = Some h →
  0 < HEAD rb < p_forward h →
  HEAD rb < HEAD rb + _ring_buffer_node_cost (len h) ≤ p_forward h →
  p_forward h < SIZE_MAX1 →
  valid_len data_len →
  let node_size := _ring_buffer_node_cost data_len in
  let next := HEAD rb + _ring_buffer_node_cost (len h) in
  let room := p_forward h - next in
  (node_size ≤ room →
   ∃ rb', ring_buffer_reserve rb data_len flags = Some (rb', token_of next) ∧
          HEAD rb' = next ∧ TAIL rb' = TAIL rb ∧
          oldest_reserve rb' = oldest_reserve rb ∧ lost rb' = lost rb ∧
          node_at rb' next
          = Some (mk_node (p_forward h) (HEAD rb) NULL (HEAD rb) writing data_len)) ∧
  (room < node_size →
   ring_buffer_reserve rb data_len flags
   = if has_flag flags ring_buffer_flag_overwrite
     then _ring_buffer_reserve_overwrite rb data_len node_size
     else Some (rb, NULL)).
Proof.
  intros Ht Hh Hpos Hnext Hmax Hvl node_size next room.
  pose proof (node_cost_valid _ Hvl) as Hns. fold node_size in Hns.
  unfold valid_len in Hvl.
  unfold ring_buffer_reserve. rewrite decide_False by done.
  unfold _ring_buffer_reserve_none_empty. rewrite Hh. simpl.
  fold node_size next.
  destruct (Z.gtb_spec (p_forward h) (HEAD rb)) as [_|?]; [|lia].
  fold room.
  rewrite (wrap_small room) by (unfold room, next, SIZE_MAX1 in *; lia).
  split.
  - intros Hfit. destruct (Z.geb_spec room node_size) as [_|?]; [|lia].
    destruct (insert_new_node_spec rb next data_len h Hh)
      as (rb' & -> & Hhd & Htl & Ho & Hl & _ & _ & Hq);
      unfold NULL, room, next in *; try lia.
    exists rb'. simpl. split_and!; [done..|].
    rewrite Hq. by rewrite decide_True.
  - intros Hno. destruct (Z.geb_spec room node_size) as [?|_]; [lia|]. done.
Qed.

Lemma reserve_between_nodes_witness :
  let h := mk_node 4256 4256 0 4256 writing 8 in
  (TAIL gap_buffer ≠ NULL ∧
   node_at gap_buffer (HEAD gap_buffer) = Some h ∧
   0 < HEAD gap_buffer < p_forward h ∧
   HEAD gap_buffer < HEAD gap_buffer + _ring_buffer_node_cost (len h) ≤ p_forward h ∧
   p_forward h < SIZE_MAX1 ∧
   valid_len 8) ∧
  ∃ rb', ring_buffer_reserve gap_buffer 8 0 = Some (rb', token_of 4200) ∧
         HEAD rb' = 4200 ∧ TAIL rb' = TAIL gap_buffer ∧
         oldest_reserve rb' = oldest_reserve gap_buffer ∧ lost rb' = lost gap_buffer ∧
         node_at rb' 4200 = Some (mk_node 4256 4144 NULL 4144 writing 8).
Proof.
  intros h.
  assert (TAIL gap_buffer ≠ NULL) as H1 by (vm_compute; discriminate).
  assert (node_at gap_buffer (HEAD gap_buffer) = Some h) as H2 by reflexivity.
  assert (0 < HEAD gap_buffer < p_forward h) as H3 by (split; vm_compute; reflexivity).
  assert (HEAD gap_buffer < HEAD gap_buffer + _ring_buffer_node_cost (len h)
          ≤ p_forward h) as H4 by (split; vm_compute; [reflexivity|discriminate]).
  assert (p_forward h < SIZE_MAX1) as H5 by (vm_compute; reflexivity).
  assert (valid_len 8) as H6 by (unfold valid_len, SIZE_MAX1; lia).
  split; [done|].
  destruct (reserve_between_nodes gap_buffer 8 0 h H1 H2 H3 H4 H5 H6) as (Hfit & _).
  apply Hfit. vm_compute. discriminate.
Defined.

(** *** A reservation that is given up *)






(** *** The time chain from call to call *)




(** *** The theorems on a run *)







(** *** Readers and the oldest records *)



(** *** A visitor that never stops the walk *)





(** *** A consumed record that is handed back *)



